(** * pyABC: acceptance criteria and threshold schedules

    A shallow embedding of [pyabc/acceptor.py], of the package module
    [pyabc/__init__.py] and of the epsilon and temperature schedules
    exercised by [test/test_epsilon.py].

    Conventions.
    - In the acceptors a generation index [t] is a Python [int]: modelled
      as [Z].  The loop [for t_prev in range(0, t)] runs over [range 0 t].
      The schedules, which are modelled from the specification, index
      generations by natural numbers, as its data model does.
    - Distances and thresholds are real numbers: modelled as [Q], with the
      comparison [d <= eps(t)] as [Qle_bool].
    - [distance_function] and [eps] are callables which either return a
      number or raise, and which return the same for the same arguments.
      What they raise is an instance of Python's [Exception] class, which is
      what [except Exception] intercepts; the interpreter's own
      [KeyboardInterrupt], [SystemExit] and [GeneratorExit], which are not
      such instances, are not modelled.
    - Every call to one of the two callables is appended to a log, so that
      statements about which generations were consulted, and in which order,
      can be made. *)

From Stdlib Require Import ZArith QArith List Bool Lia String Ascii.
From stdpp Require Import base option list sorting gmap strings.

Local Open Scope Z_scope.

(** ** Exceptions, results and the call log *)

(** Instances of [Exception]. *)
Inductive exn : Type :=
| KeyError (msg : string)
| IndexError (msg : string)
| ValueError (msg : string)
| RuntimeError (msg : string)
| NotImplementedError.

(** What a Python call produces: a value, or a raised exception. *)
Inductive result (A : Type) : Type :=
| Ok (a : A)
| Raise (e : exn).
Arguments Ok {A} a.
Arguments Raise {A} e.

(** One entry of the log per call of a callable. *)
Inductive call : Type :=
| CallDistance (t : Z)
| CallEps (t : Z).

(** The generation a logged call was made for. *)
Definition call_time (c : call) : Z :=
  match c with
  | CallDistance t => t
  | CallEps t => t
  end.

(** A computation: it extends the log and returns or raises.  The log
    survives a raise, a call that was made stays made. *)
Definition py (A : Type) : Type := list call -> result A * list call.

Definition py_ret {A} (a : A) : py A := fun log => (Ok a, log).

Definition py_bind {A B} (f : A -> py B) (m : py A) : py B :=
  fun log =>
    match m log with
    | (Ok a, log') => f a log'
    | (Raise e, log') => (Raise e, log')
    end.

#[global] Instance py_mret : MRet py := @py_ret.
#[global] Instance py_mbind : MBind py := @py_bind.

Definition result_bind {A B} (f : A -> result B) (r : result A) : result B :=
  match r with
  | Ok a => f a
  | Raise e => Raise e
  end.

Definition result_map {A B} (f : A -> B) (r : result A) : result B :=
  match r with
  | Ok a => Ok (f a)
  | Raise e => Raise e
  end.

#[global] Instance result_mret : MRet result := @Ok.
#[global] Instance result_mbind : MBind result := @result_bind.
#[global] Instance result_fmap : FMap result := @result_map.

(** [try: body  except Exception: handler]. *)
Definition try_except {A} (body : py A) (handler : exn -> py A) : py A :=
  fun log =>
    match body log with
    | (Ok a, log') => (Ok a, log')
    | (Raise e, log') => handler e log'
    end.

(** [range(lo, hi)]. *)
Definition range (lo hi : Z) : list Z := seqZ lo (hi - lo).

(** ** The acceptor module *)

Module Acceptor.

Section Callables.

Context {Stat : Type}.

(** [distance_function(t, x, x_0)], logged. *)
Definition call_distance (distance_function : Z -> Stat -> Stat -> result Q)
    (t : Z) (x x_0 : Stat) : py Q :=
  fun log => (distance_function t x x_0, log ++ [CallDistance t]).

(** [eps(t)], logged. *)
Definition call_eps (eps : Z -> result Q) (t : Z) : py Q :=
  fun log => (eps t, log ++ [CallEps t]).

(** [accept_use_current_time]: the distance and the threshold of the
    current time point only. *)
Definition accept_use_current_time (t : Z)
    (distance_function : Z -> Stat -> Stat -> result Q)
    (eps : Z -> result Q) (x x_0 : Stat) : py (Q * bool) :=
  d ← call_distance distance_function t x x_0;
  e ← call_eps eps t;
  let accept := Qle_bool d e in
  mret (d, accept).

(** The signature of [Acceptor.__call__]. *)
Definition acceptor_fun : Type :=
  Z -> (Z -> Stat -> Stat -> result Q) -> (Z -> result Q) -> Stat -> Stat ->
  py (Q * bool).

(** [Acceptor.__call__]: the base class is abstract. *)
Definition Acceptor_call : acceptor_fun :=
  fun _ _ _ _ _ log => (Raise NotImplementedError, log).

(** [SimpleAcceptor]: initialized from a function, by default
    [accept_use_current_time]. *)
Record SimpleAcceptor : Type := { SimpleAcceptor_fun : acceptor_fun }.

Definition SimpleAcceptor_init (fn : option acceptor_fun) : SimpleAcceptor :=
  {| SimpleAcceptor_fun :=
       match fn with
       | None => accept_use_current_time
       | Some f => f
       end |}.

Definition SimpleAcceptor_call (self : SimpleAcceptor) : acceptor_fun :=
  fun t distance_function eps x x_0 =>
    SimpleAcceptor_fun self t distance_function eps x x_0.

(** The body of the loop of [accept_use_complete_history], run with the
    variable [accept] holding the given value.  It returns the new value of
    [accept] and whether [break] was executed.  When either call raises,
    the assignment to [accept] has not happened. *)
Definition loop_body (distance_function : Z -> Stat -> Stat -> result Q)
    (eps : Z -> result Q) (x x_0 : Stat) (accept : bool) (t_prev : Z)
    : py (bool * bool) :=
  try_except
    (d_prev ← call_distance distance_function t_prev x x_0;
     e_prev ← call_eps eps t_prev;
     let accept := Qle_bool d_prev e_prev in
     if negb accept then mret (accept, true) else mret (accept, false))
    (fun _ => mret (accept, false)).

(** [for t_prev in ts: ...], returning the final value of [accept]. *)
Fixpoint for_t_prev (distance_function : Z -> Stat -> Stat -> result Q)
    (eps : Z -> result Q) (x x_0 : Stat) (ts : list Z) (accept : bool)
    : py bool :=
  match ts with
  | [] => mret accept
  | t_prev :: ts' =>
      '(accept', broke) ← loop_body distance_function eps x x_0 accept t_prev;
      if broke : bool then mret accept'
      else for_t_prev distance_function eps x x_0 ts' accept'
  end.

(** [accept_use_complete_history]. *)
Definition accept_use_complete_history (t : Z)
    (distance_function : Z -> Stat -> Stat -> result Q)
    (eps : Z -> result Q) (x x_0 : Stat) : py (Q * bool) :=
  d ← call_distance distance_function t x x_0;
  e ← call_eps eps t;
  let accept := Qle_bool d e in
  if accept then
    accept' ← for_t_prev distance_function eps x x_0 (range 0 t) accept;
    mret (d, accept')
  else mret (d, accept).

(** *** The policy in the words of the specification

    Each prior generation has one of three outcomes; the decision is the
    conjunction of the outcomes that are not skips. *)

Inductive outcome : Type :=
| Accepts
| Rejects
| Skipped.

(** The check of generation [t']: skipped when either callable raises. *)
Definition check (distance_function : Z -> Stat -> Stat -> result Q)
    (eps : Z -> result Q) (x x_0 : Stat) (t' : Z) : outcome :=
  match distance_function t' x x_0 with
  | Raise _ => Skipped
  | Ok d' =>
      match eps t' with
      | Raise _ => Skipped
      | Ok e' => if Qle_bool d' e' then Accepts else Rejects
      end
  end.

Definition is_skipped (o : outcome) : bool :=
  match o with Skipped => true | _ => false end.

Definition is_rejection (o : outcome) : bool :=
  match o with Rejects => true | _ => false end.

Definition is_acceptance (o : outcome) : bool :=
  match o with Accepts => true | _ => false end.

(** The conjunction of the checks of [ts] that did not raise. *)
Definition all_non_skipped (distance_function : Z -> Stat -> Stat -> result Q)
    (eps : Z -> result Q) (x x_0 : Stat) (ts : list Z) : bool :=
  forallb (fun t' => negb (is_rejection (check distance_function eps x x_0 t')))
    ts.

(** The generations of [ts] whose check did not raise. *)
Definition non_skipped (distance_function : Z -> Stat -> Stat -> result Q)
    (eps : Z -> result Q) (x x_0 : Stat) (ts : list Z) : list Z :=
  filter (fun t' => is_skipped (check distance_function eps x x_0 t') = false)
    ts.

(** The calls the check of generation [t'] makes: the threshold is only
    asked for when the distance function returned. *)
Definition calls_of (distance_function : Z -> Stat -> Stat -> result Q)
    (x x_0 : Stat) (t' : Z) : list call :=
  match distance_function t' x x_0 with
  | Raise _ => [CallDistance t']
  | Ok _ => [CallDistance t'; CallEps t']
  end.

(** The generations of [ts] the forward scan visits: all up to and
    including the first one that rejects. *)
Fixpoint scanned (distance_function : Z -> Stat -> Stat -> result Q)
    (eps : Z -> result Q) (x x_0 : Stat) (ts : list Z) : list Z :=
  match ts with
  | [] => []
  | t' :: ts' =>
      t' :: (if is_rejection (check distance_function eps x x_0 t') then []
             else scanned distance_function eps x x_0 ts')
  end.

(** The first generation of [ts] that rejects, if any. *)
Definition first_rejection (distance_function : Z -> Stat -> Stat -> result Q)
    (eps : Z -> result Q) (x x_0 : Stat) (ts : list Z) : option Z :=
  List.find (fun t' => is_rejection (check distance_function eps x x_0 t')) ts.

(** Where the forward scan of the generations [0 .. t-1] ends: just after
    the first rejecting generation, or at [t]. *)
Definition scan_end (distance_function : Z -> Stat -> Stat -> result Q)
    (eps : Z -> result Q) (x x_0 : Stat) (t : Z) : Z :=
  match first_rejection distance_function eps x x_0 (range 0 t) with
  | Some r => r + 1
  | None => Z.max 0 t
  end.

End Callables.

End Acceptor.


(** ** Epsilon and temperature schedules

    [pyabc/epsilon.py] is not part of the sources at hand; only its test
    suite is.  The schedules are therefore modelled from the specification:
    a closed set of variants behind one contract ([initialize], [update],
    [schedule]), each instance carrying its configuration and its schedule
    state. *)

Module Schedules.

(** Modelled from the spec: a threshold or temperature value, which is a
    real number or plus infinity (the value of the missing [NoEpsilon]
    schedule and of a decay scheme at cold start). *)
Inductive threshold : Type :=
| Finite (v : Q)
| Infinite.

(** Modelled from the spec: the [kernel_scale] option of the missing
    acceptor configuration, linear or logarithmic. *)
Inductive kernel_scale_t : Type :=
| SCALE_LIN
| SCALE_LOG.

(** Modelled from the spec: the missing acceptor configuration record with
    its two recognized options. *)
Record acceptor_config : Type := {
  pdf_norm : Q;
  kernel_scale : kernel_scale_t
}.

(** Modelled from the spec: one particle record, as the missing sampler
    hands it to the schedules. *)
Record particle_record : Type := {
  distance : Q;
  transition_pd_prev : Q;
  transition_pd : Q;
  accepted : bool
}.

(** Modelled from the spec: the weighted distance sample, an ordered
    collection of (distance, weight) pairs. *)
Definition weighted_distances : Type := list (Q * Q).

(** *** The weighted empirical quantile *)

(** Modelled from the spec: "values sorted ascending"; the missing helper
    sorts the sample by distance.  Insertion keeps the order of equal
    distances. *)
Fixpoint insert_by_distance (p : Q * Q) (l : weighted_distances)
    : weighted_distances :=
  match l with
  | [] => [p]
  | q :: l' =>
      if Qle_bool p.1 q.1 then p :: q :: l'
      else q :: insert_by_distance p l'
  end.

Definition sort_by_distance (l : weighted_distances) : weighted_distances :=
  foldr insert_by_distance [] l.

(** Modelled from the spec: the order of "values sorted ascending", on
    the pairs of the sample. *)
Definition by_distance (p q : Q * Q) : Prop := (p.1 <= q.1)%Q.

Definition total_weight (l : weighted_distances) : Q :=
  foldr (fun p acc => p.2 + acc)%Q 0%Q l.

(** Modelled from the spec: "weights normalized to sum 1". *)
Definition normalize (l : weighted_distances) : weighted_distances :=
  map (fun p => (p.1, p.2 / total_weight l)%Q) l.

(** Modelled from the spec: "unweighted request uses equal weights
    instead". *)
Definition equal_weights (l : weighted_distances) : weighted_distances :=
  map (fun p => (p.1, 1%Q)) l.

(** Modelled from the spec: "cumulative weight crossing alpha selects the
    quantile value", which is the "midpoint between the values bounding the
    cumulative-weight crossing".  The weight mass below a value is the
    cumulative weight of the values before it; it crosses [alpha] between
    the first value [v] whose cumulative weight reaches [alpha] and the
    value [v'] after it, and the quantile is the midpoint of the two (for
    the distances 1, 2, 3, 4 with weights 2, 1, 1, 1 and [alpha = 0.5]:
    between 2 and 3).  When [v] is the last value, the quantile is [v].
    [acc] is the weight accumulated so far. *)
Fixpoint crossing (alpha acc : Q) (l : weighted_distances) : option Q :=
  match l with
  | [] => None
  | (v, w) :: l' =>
      let acc' := (acc + w)%Q in
      if Qle_bool alpha acc' then
        match l' with
        | (v', _) :: _ => Some ((v + v') / 2)%Q
        | [] => Some v
        end
      else crossing alpha acc' l'
  end.

(** Modelled from the spec: the missing weighted-quantile utility,
    [Q_alpha(distances, weights)].  A sample without weight mass has no
    quantile. *)
Definition weighted_quantile (points : weighted_distances) (alpha : Q)
    : result Q :=
  match crossing alpha 0 (normalize (sort_by_distance points)) with
  | Some v => Ok v
  | None => Raise (ValueError "quantile of a sample without weight mass")
  end.

(** *** Schedule state *)

(** Modelled from the spec: the missing schedule state is an append-only
    mapping from generation index to the frozen value; recording a value
    for a generation that has one leaves the mapping as it is. *)
Definition freeze (t : nat) (v : threshold) (look_up : gmap nat threshold)
    : gmap nat threshold :=
  match look_up !! t with
  | Some _ => look_up
  | None => <[t := v]> look_up
  end.

(** Modelled from the spec: reading the value of a generation before it
    has been computed is an error. *)
Definition frozen (look_up : gmap nat threshold) (t : nat) : result threshold :=
  match look_up !! t with
  | Some v => Ok v
  | None => Raise (KeyError "generation not computed yet")
  end.

(** *** Quantile-based schedule *)

(** Modelled from the spec: the configuration and state of the missing
    [QuantileEpsilon].  Without an [initial_epsilon] the first value is
    computed from the sample. *)
Record quantile_epsilon : Type := {
  initial_epsilon : option Q;
  alpha : Q;
  quantile_multiplier : Q;
  weighted : bool;
  look_up : gmap nat threshold
}.

Definition set_look_up (eps : quantile_epsilon)
    (m : gmap nat threshold) : quantile_epsilon :=
  {| initial_epsilon := initial_epsilon eps;
     alpha := alpha eps;
     quantile_multiplier := quantile_multiplier eps;
     weighted := weighted eps;
     look_up := m |}.

(** Modelled from the spec: [quantile_multiplier * Q_alpha(distances,
    weights if weighted else uniform)], frozen for generation [t]. *)
Definition quantile_update (eps : quantile_epsilon) (t : nat)
    (get_weighted_distances : unit -> weighted_distances)
    : result quantile_epsilon :=
  let df := get_weighted_distances () in
  let points := if weighted eps then df else equal_weights df in
  quantile ← weighted_quantile points (alpha eps);
  mret (set_look_up eps
          (freeze t (Finite (quantile_multiplier eps * quantile)%Q)
             (look_up eps))).

(** Modelled from the spec: "[initialize] sets generation 0's value to
    exactly [initial_epsilon] (no computation)". *)
Definition quantile_initialize (eps : quantile_epsilon) (t : nat)
    (get_weighted_distances : unit -> weighted_distances)
    : result quantile_epsilon :=
  match initial_epsilon eps with
  | Some v => Ok (set_look_up eps (freeze t (Finite v) (look_up eps)))
  | None => quantile_update eps t get_weighted_distances
  end.

(** *** Temperature schedule *)

(** Modelled from the spec: the arguments every missing annealing scheme is
    invoked with. *)
Record scheme_args : Type := {
  arg_t : nat;
  arg_get_weighted_distances : unit -> weighted_distances;
  arg_get_all_records : unit -> list particle_record;
  arg_max_nr_populations : option Z;
  arg_pdf_norm : Q;
  arg_kernel_scale : kernel_scale_t;
  arg_prev_temperature : option threshold;
  arg_acceptance_rate : option Q
}.

(** Modelled from the spec: a missing annealing scheme is a pure function
    of its arguments which proposes a temperature, or fails. *)
Definition scheme : Type := scheme_args -> result threshold.

(** Modelled from the spec: the configuration and state of the missing
    [Temperature].  The rule combining the proposals is left to the
    instance ([aggregate_fun]); the result is never below 1. *)
Record temperature : Type := {
  schemes : list scheme;
  aggregate_fun : list threshold -> threshold;
  initial_temperature : Q;
  max_nr_populations : option Z;
  temperatures : gmap nat threshold
}.

Definition set_schemes (temp : temperature) (ss : list scheme)
    (agg : list threshold -> threshold) : temperature :=
  {| schemes := ss;
     aggregate_fun := agg;
     initial_temperature := initial_temperature temp;
     max_nr_populations := max_nr_populations temp;
     temperatures := temperatures temp |}.

Definition set_temperatures (temp : temperature)
    (m : gmap nat threshold) : temperature :=
  {| schemes := schemes temp;
     aggregate_fun := aggregate_fun temp;
     initial_temperature := initial_temperature temp;
     max_nr_populations := max_nr_populations temp;
     temperatures := m |}.

(** Modelled from the spec: generation [t] is the last one when it equals
    [max_nr_populations - 1]. *)
Definition is_final_generation (temp : temperature) (t : nat) : bool :=
  match max_nr_populations temp with
  | Some n => Z.of_nat t =? n - 1
  | None => false
  end.

(** Modelled from the spec: "never below 1". *)
Definition at_least_one (v : threshold) : threshold :=
  match v with
  | Finite q => if Qle_bool 1 q then Finite q else Finite 1
  | Infinite => Infinite
  end.

(** Each scheme is invoked in turn; the first failure propagates. *)
Fixpoint propose (ss : list scheme) (args : scheme_args)
    : result (list threshold) :=
  match ss with
  | [] => Ok []
  | s :: ss' =>
      temp ← s args;
      temps ← propose ss' args;
      mret (temp :: temps)
  end.

(** Modelled from the spec: [initialize] of the missing [Temperature]
    notes the planned number of generations and freezes the first
    generation to exactly [initial_temperature]. *)
Definition temperature_initialize (temp : temperature) (t : nat)
    (max_nr : option Z) : result temperature :=
  Ok {| schemes := schemes temp;
        aggregate_fun := aggregate_fun temp;
        initial_temperature := initial_temperature temp;
        max_nr_populations := max_nr;
        temperatures :=
          freeze t (Finite (initial_temperature temp)) (temperatures temp) |}.

(** Modelled from the spec: [update] of the missing [Temperature].  At the
    final generation the value is forced to 1 and no scheme is invoked;
    otherwise the schemes propose and the proposals are combined.  The
    acceptor configuration is only needed to invoke the schemes. *)
Definition temperature_update (temp : temperature) (t : nat)
    (get_weighted_distances : unit -> weighted_distances)
    (get_all_records : unit -> list particle_record)
    (acceptance_rate : option Q) (config : option acceptor_config)
    : result temperature :=
  if is_final_generation temp t then
    Ok (set_temperatures temp (freeze t (Finite 1) (temperatures temp)))
  else
    match config with
    | None => Raise (KeyError "pdf_norm")
    | Some c =>
        temps ← propose (schemes temp)
                  {| arg_t := t;
                     arg_get_weighted_distances := get_weighted_distances;
                     arg_get_all_records := get_all_records;
                     arg_max_nr_populations := max_nr_populations temp;
                     arg_pdf_norm := pdf_norm c;
                     arg_kernel_scale := kernel_scale c;
                     arg_prev_temperature := temperatures temp !! pred t;
                     arg_acceptance_rate := acceptance_rate |};
        mret (set_temperatures temp
                (freeze t (at_least_one (aggregate_fun temp temps))
                   (temperatures temp)))
    end.

(** *** The family of schedules *)

(** Modelled from the spec: the closed set of variants of the missing
    [Epsilon] family, the temperature schedule included. *)
Inductive Epsilon : Type :=
| NoEpsilon
| ConstantEpsilon (constant_epsilon_value : Q)
| ListEpsilon (epsilon_values : list Q)
| QuantileEpsilon (eps : quantile_epsilon)
| Temperature (temp : temperature).

(** Modelled from the spec: the missing [MedianEpsilon] is the
    quantile-based schedule fixed at [alpha = 0.5]. *)
Definition MedianEpsilon (initial_epsilon : option Q)
    (quantile_multiplier : Q) (weighted : bool) : Epsilon :=
  QuantileEpsilon
    {| initial_epsilon := initial_epsilon;
       alpha := 1 # 2;
       quantile_multiplier := quantile_multiplier;
       weighted := weighted;
       look_up := ∅ |}.

(** Modelled from the spec: [initialize(t0, get_weighted_distances,
    get_all_records, max_nr_populations, config)]. *)
Definition initialize (eps : Epsilon) (t : nat)
    (get_weighted_distances : unit -> weighted_distances)
    (get_all_records : unit -> list particle_record)
    (max_nr_populations : option Z) (config : option acceptor_config)
    : result Epsilon :=
  match eps with
  | QuantileEpsilon q =>
      QuantileEpsilon <$> quantile_initialize q t get_weighted_distances
  | Temperature temp =>
      Temperature <$> temperature_initialize temp t max_nr_populations
  | _ => Ok eps
  end.

(** Modelled from the spec: [update(t, get_weighted_distances,
    get_all_records, acceptance_rate, config)]. *)
Definition update (eps : Epsilon) (t : nat)
    (get_weighted_distances : unit -> weighted_distances)
    (get_all_records : unit -> list particle_record)
    (acceptance_rate : option Q) (config : option acceptor_config)
    : result Epsilon :=
  match eps with
  | QuantileEpsilon q =>
      QuantileEpsilon <$> quantile_update q t get_weighted_distances
  | Temperature temp =>
      Temperature <$> temperature_update temp t get_weighted_distances
                        get_all_records acceptance_rate config
  | _ => Ok eps
  end.

(** Modelled from the spec: [schedule(t)], the threshold of generation
    [t].  A list schedule has no fallback beyond its last entry. *)
Definition schedule (eps : Epsilon) (t : nat) : result threshold :=
  match eps with
  | NoEpsilon => Ok Infinite
  | ConstantEpsilon v => Ok (Finite v)
  | ListEpsilon values =>
      match values !! t with
      | Some v => Ok (Finite v)
      | None => Raise (IndexError "list index out of range")
      end
  | QuantileEpsilon q => frozen (look_up q) t
  | Temperature temp => frozen (temperatures temp) t
  end.

(** *** Runs of operations on one instance *)

(** Modelled from the spec: the operations of the common contract. *)
Inductive operation : Type :=
| Initialize (t : nat)
    (get_weighted_distances : unit -> weighted_distances)
    (get_all_records : unit -> list particle_record)
    (max_nr_populations : option Z) (config : option acceptor_config)
| Update (t : nat)
    (get_weighted_distances : unit -> weighted_distances)
    (get_all_records : unit -> list particle_record)
    (acceptance_rate : option Q) (config : option acceptor_config)
| Lookup (t : nat).

(** The instance after an operation.  An operation that raises has not
    recorded anything; a lookup records nothing either. *)
Definition perform (eps : Epsilon) (op : operation) : Epsilon :=
  match op with
  | Initialize t gwd gar max_nr config =>
      match initialize eps t gwd gar max_nr config with
      | Ok eps' => eps'
      | Raise _ => eps
      end
  | Update t gwd gar rate config =>
      match update eps t gwd gar rate config with
      | Ok eps' => eps'
      | Raise _ => eps
      end
  | Lookup t => eps
  end.

Definition run (eps : Epsilon) (ops : list operation) : Epsilon :=
  foldl perform eps ops.

End Schedules.

(** ** Concrete inputs *)

Module Examples.

Import Schedules.

(** A continued run: nothing is available for generation 0.  The distance
    is the squared difference of two scalar statistics. *)
Definition resumed_distance (t : Z) (x x_0 : Q) : result Q :=
  if t =? 0 then Raise (KeyError "no distance weights for generation 0")
  else Ok ((x - x_0) * (x - x_0))%Q.

Definition resumed_eps (t : Z) : result Q :=
  match t with
  | 1 => Ok 3%Q
  | 2 => Ok 9%Q
  | 3 => Ok 5%Q
  | _ => Raise (KeyError "no threshold for this generation")
  end.

(** The data frame of [test_quantileepsilon]:
    [distance = [1, 2, 3, 4]], [w = [2, 1, 1, 1]]. *)
Definition test_df : unit -> weighted_distances :=
  fun _ => [(1, 2); (2, 1); (3, 1); (4, 1)]%Q.

(** [lambda: None]. *)
Definition test_no_records : unit -> list particle_record := fun _ => [].

(** [QuantileEpsilon(initial_epsilon=5.1, alpha=0.5,
    quantile_multiplier=1.1, weighted=False)]. *)
Definition test_quantile_epsilon : Epsilon :=
  QuantileEpsilon
    {| initial_epsilon := Some (51 # 10);
       alpha := 1 # 2;
       quantile_multiplier := 11 # 10;
       weighted := false;
       look_up := ∅ |}.

(** [ListEpsilon([3.5, 2.3, 1, 0.3])]. *)
Definition test_list_epsilon : Epsilon :=
  ListEpsilon [35 # 10; 23 # 10; 1; 3 # 10]%Q.

(** A scheme whose computation fails. *)
Definition failing_scheme : scheme :=
  fun _ => Raise (ValueError "scheme cannot be evaluated").

(** [Temperature(initial_temperature=42)] after
    [initialize(0, ..., max_nr_populations=3, ...)]. *)
Definition test_temperature : temperature :=
  {| schemes := [failing_scheme];
     aggregate_fun := fun _ => Infinite;
     initial_temperature := 42;
     max_nr_populations := Some 3;
     temperatures := {[ 0%nat := Finite 42 ]} |}.

End Examples.

(** ** The package module [pyabc/__init__.py] *)

Module Package.

(** The [from .module import names] statements, in order: the module and
    the names each one binds. *)
Definition from_imports : list (string * list string) :=
  [ ("parameters", ["Parameter"]);
    ("random_variables",
     ["Distribution"; "ModelPerturbationKernel"; "RV"; "RVBase";
      "RVDecorator"; "LowerBoundDecorator"]);
    ("distance_functions",
     ["DistanceFunction"; "NoDistance"; "SimpleFunctionDistance";
      "PNormDistance"; "EuclideanDistance"; "WeightedPNormDistance";
      "WeightedEuclideanDistance"; "ZScoreDistanceFunction";
      "PCADistanceFunction"; "MinMaxDistanceFunction";
      "PercentileDistanceFunction"; "RangeEstimatorDistanceFunction";
      "DistanceFunctionWithMeasureList"]);
    ("epsilon",
     ["Epsilon"; "ConstantEpsilon"; "QuantileEpsilon"; "MedianEpsilon";
      "ListEpsilon"]);
    ("smc", ["ABCSMC"]);
    ("storage", ["History"]);
    ("model", ["Model"; "SimpleModel"; "ModelResult"; "IntegratedModel"]);
    ("transition", ["MultivariateNormalTransition"; "LocalTransition"]);
    ("populationstrategy",
     ["AdaptivePopulationSize"; "ConstantPopulationSize"]);
    ("transition", ["GridSearchCV"]);
    ("version", ["__version__"]) ]%string.

(** [__all__]. *)
Definition __all__ : list string :=
  [ "ABCSMC";
    "DistanceFunction"; "NoDistance"; "SimpleFunctionDistance";
    "PNormDistance"; "EuclideanDistance"; "WeightedPNormDistance";
    "WeightedEuclideanDistance"; "DistanceFunctionWithMeasureList";
    "ZScoreDistanceFunction"; "PCADistanceFunction";
    "RangeEstimatorDistanceFunction"; "MinMaxDistanceFunction";
    "PercentileDistanceFunction";
    "Epsilon"; "ConstantEpsilon"; "ListEpsilon"; "QuantileEpsilon";
    "MedianEpsilon";
    "RVBase"; "RV"; "RVDecorator"; "LowerBoundDecorator"; "Parameter";
    "Distribution"; "ModelPerturbationKernel";
    "SQLDataStore"; "ABCLoader"; "GridSearchCV"; "ConstantPopulationSize";
    "AdaptivePopulationSize"; "MultivariateNormalTransition";
    "LocalTransition"; "SimpleModel"; "ModelResult"; "Model";
    "IntegratedModel"; "History" ]%string.

(** The names bound by the [from] imports. *)
Definition imported_names : list string := flat_map snd from_imports.

(** The names the statements of the module bind: [import os],
    [import logging], the submodules loaded by the relative imports, the
    imported names, and the two assignments. *)
Definition bound_names : list string :=
  ["os"; "logging"]%string ++ map fst from_imports ++ imported_names
    ++ ["__all__"; "loglevel"]%string.

Definition is_bound (name : string) : bool :=
  bool_decide (name ∈ bound_names).

(** [str.upper] on text made of ASCII characters: the letters [a-z] are
    mapped to [A-Z], everything else is kept. *)
Definition upper_ascii (c : ascii) : ascii :=
  let n := nat_of_ascii c in
  if ((97 <=? n) && (n <=? 122))%nat then ascii_of_nat (n - 32) else c.

Fixpoint upper (s : string) : string :=
  match s with
  | EmptyString => EmptyString
  | String c s' => String (upper_ascii c) (upper s')
  end.

(** [os.environ[key]]. *)
Definition environ_getitem (environ : gmap string string) (key : string)
    : result string :=
  match environ !! key with
  | Some v => Ok v
  | None => Raise (KeyError key)
  end.

(** The log level the module computes:
    [try: loglevel = os.environ[ABC_LOG_LEVEL].upper()]
    [except KeyError: loglevel = INFO]. *)
Definition loglevel (environ : gmap string string) : result string :=
  match (v ← environ_getitem environ "ABC_LOG_LEVEL"; mret (upper v)) with
  | Raise (KeyError _) => Ok "INFO"%string
  | r => r
  end.

(** A lower-case ASCII letter. *)
Definition is_lower (c : ascii) : bool :=
  ((97 <=? nat_of_ascii c) && (nat_of_ascii c <=? 122))%nat.

(** Text made of ASCII characters only. *)
Definition is_ascii (s : string) : bool :=
  forallb (fun c => (nat_of_ascii c <? 128)%nat) (list_ascii_of_string s).

End Package.

(** ** Further inputs *)

Module Scenarios.

(** A distance that does not depend on the generation. *)
Definition steady_distance (t : Z) (x x_0 : Q) : result Q :=
  Ok ((x - x_0) * (x - x_0))%Q.

(** Thresholds that shrink from one generation to the next. *)
Definition shrinking_eps (t : Z) : result Q := Ok (inject_Z (10 - t)).

(** The same thresholds, relaxed. *)
Definition relaxed_eps (t : Z) : result Q := Ok (inject_Z (20 - t)).

(** The shrinking thresholds while only the generations up to 2 have been
    computed. *)
Definition pending_eps (t : Z) : result Q :=
  if 3 <=? t then Raise (KeyError "generation not computed yet")
  else shrinking_eps t.

(** The configuration and the empty state of
    [QuantileEpsilon(initial_epsilon=5.1, alpha=0.5,
    quantile_multiplier=1.1, weighted=False)]. *)
Definition test_quantile_record : Schedules.quantile_epsilon :=
  {| Schedules.initial_epsilon := Some (51 # 10);
     Schedules.alpha := 1 # 2;
     Schedules.quantile_multiplier := 11 # 10;
     Schedules.weighted := false;
     Schedules.look_up := ∅ |}.

(** An environment which sets the log level in lower case. *)
Definition debug_environ : gmap string string :=
  {[ "ABC_LOG_LEVEL"%string := "debug"%string ]}.

(** An environment which does not set it. *)
Definition plain_environ : gmap string string :=
  {[ "HOME"%string := "/root"%string ]}.

End Scenarios.

(** * Properties of the acceptors *)

Import Acceptor.

Section AcceptorFacts.
Context {Stat : Type}.
Implicit Types (distance_function : Z -> Stat -> Stat -> result Q).
Implicit Types (eps : Z -> result Q) (x : Stat).
Implicit Types (t : Z) (ts : list Z) (log : list call).

Ltac py_unfold :=
  cbv beta iota zeta delta
    [mbind mret py_mbind py_bind py_mret py_ret try_except
     call_distance call_eps loop_body].

(** [range(lo, hi)] lists [lo], [lo + 1], ... in increasing order. *)
Lemma range_lookup (lo hi : Z) (i : nat) :
  Z.of_nat i < hi - lo -> range lo hi !! i = Some (lo + Z.of_nat i).
Proof. intros Hi. unfold range. by apply lookup_seqZ_lt. Qed.

Lemma range_length (lo hi : Z) : length (range lo hi) = Z.to_nat (hi - lo).
Proof. unfold range. apply length_seqZ. Qed.

(** The default [SimpleAcceptor] is the current-time policy. *)
Lemma SimpleAcceptor_default t distance_function eps x (x_0 : Stat) log :
  SimpleAcceptor_call (SimpleAcceptor_init None) t distance_function eps
    x x_0 log
  = accept_use_current_time t distance_function eps x x_0 log.
Proof. reflexivity. Qed.

Lemma check_distance_raises distance_function eps x (x_0 : Stat) t' ex :
  distance_function t' x x_0 = Raise ex ->
  check distance_function eps x x_0 t' = Skipped.
Proof. unfold check. by intros ->. Qed.

Lemma check_eps_raises distance_function eps x (x_0 : Stat) t' d' ex :
  distance_function t' x x_0 = Ok d' -> eps t' = Raise ex ->
  check distance_function eps x x_0 t' = Skipped.
Proof. unfold check. by intros -> ->. Qed.

Lemma check_returns distance_function eps x (x_0 : Stat) t' d' e' :
  distance_function t' x x_0 = Ok d' -> eps t' = Ok e' ->
  check distance_function eps x x_0 t'
  = if Qle_bool d' e' then Accepts else Rejects.
Proof. unfold check. by intros -> ->. Qed.

Lemma for_t_prev_true distance_function eps x (x_0 : Stat) ts log :
  for_t_prev distance_function eps x x_0 ts true log
  = (Ok (all_non_skipped distance_function eps x x_0 ts),
     log ++ flat_map (calls_of distance_function x x_0)
              (scanned distance_function eps x x_0 ts)).
Proof.
  revert log. induction ts as [|t' ts IH]; intros log.
  - cbn. by rewrite app_nil_r.
  - cbn [for_t_prev scanned all_non_skipped forallb flat_map].
    fold (all_non_skipped distance_function eps x x_0 ts).
    unfold calls_of at 1. py_unfold.
    destruct (distance_function t' x x_0) as [d'|ex] eqn:Hd.
    + destruct (eps t') as [e'|ex] eqn:He.
      * rewrite (check_returns _ _ _ _ _ _ _ Hd He).
        destruct (Qle_bool d' e') eqn:Hle; cbn.
        -- rewrite IH. f_equal. by rewrite <- !app_assoc.
        -- by rewrite ?app_nil_r, <- ?app_assoc.
      * rewrite (check_eps_raises _ _ _ _ _ _ _ Hd He); cbn.
        rewrite IH. f_equal. by rewrite <- !app_assoc.
    + rewrite (check_distance_raises _ _ _ _ _ _ Hd); cbn.
      rewrite IH. f_equal. by rewrite <- !app_assoc.
Qed.

Lemma complete_history_unfold t distance_function eps x (x_0 : Stat) log :
  accept_use_complete_history t distance_function eps x x_0 log
  = match distance_function t x x_0 with
    | Raise ex => (Raise ex, log ++ [CallDistance t])
    | Ok d =>
        match eps t with
        | Raise ex => (Raise ex, log ++ [CallDistance t; CallEps t])
        | Ok e =>
            if Qle_bool d e
            then (Ok (d, all_non_skipped distance_function eps x x_0
                           (range 0 t)),
                  log ++ [CallDistance t; CallEps t]
                    ++ flat_map (calls_of distance_function x x_0)
                         (scanned distance_function eps x x_0 (range 0 t)))
            else (Ok (d, false), log ++ [CallDistance t; CallEps t])
        end
    end.
Proof.
  unfold accept_use_complete_history. py_unfold.
  destruct (distance_function t x x_0) as [d|ex]; [|done].
  destruct (eps t) as [e|ex]; [|by rewrite <- app_assoc].
  destruct (Qle_bool d e) eqn:Hle; [|by rewrite <- app_assoc].
  rewrite for_t_prev_true. by rewrite <- !app_assoc.
Qed.

Lemma current_time_unfold t distance_function eps x (x_0 : Stat) log :
  accept_use_current_time t distance_function eps x x_0 log
  = match distance_function t x x_0 with
    | Raise ex => (Raise ex, log ++ [CallDistance t])
    | Ok d =>
        match eps t with
        | Raise ex => (Raise ex, log ++ [CallDistance t; CallEps t])
        | Ok e => (Ok (d, Qle_bool d e), log ++ [CallDistance t; CallEps t])
        end
    end.
Proof.
  unfold accept_use_current_time. py_unfold.
  destruct (distance_function t x x_0) as [d|ex]; [|done].
  destruct (eps t) as [e|ex]; by rewrite <- app_assoc.
Qed.

(** Searching an interval of integers from its lower end. *)
Lemma find_seqZ_Some (P : Z -> bool) (a n r : Z) :
  List.find P (seqZ a n) = Some r ->
  a <= r < a + n /\ P r = true /\ forall s, a <= s < r -> P s = false.
Proof.
  remember (Z.to_nat n) as k eqn:Hk. revert a n Hk.
  induction k as [|k IH]; intros a n Hk.
  - rewrite seqZ_nil by lia. discriminate.
  - rewrite seqZ_cons by lia. cbn [List.find].
    destruct (P a) eqn:Ha.
    + intros [= <-]. repeat split; [lia | lia | done | intros s ?; lia].
    + intros Hfind. apply IH in Hfind as (Hr & HP & Hbefore); [|lia].
      repeat split; [lia | lia | done |].
      intros s Hs. destruct (decide (s = a)) as [->|Hne]; [done|].
      apply Hbefore. lia.
Qed.

Lemma find_seqZ_None (P : Z -> bool) (a n : Z) :
  List.find P (seqZ a n) = None -> forall s, a <= s < a + n -> P s = false.
Proof.
  remember (Z.to_nat n) as k eqn:Hk. revert a n Hk.
  induction k as [|k IH]; intros a n Hk.
  - intros _ s Hs. lia.
  - rewrite seqZ_cons by lia. cbn [List.find].
    destruct (P a) eqn:Ha; [discriminate|].
    intros Hfind s Hs. destruct (decide (s = a)) as [->|Hne]; [done|].
    apply (IH (Z.succ a) (Z.pred n)); [lia | done | lia].
Qed.

Lemma scanned_seqZ distance_function eps x (x_0 : Stat) (a n : Z) :
  scanned distance_function eps x x_0 (seqZ a n)
  = seqZ a (match first_rejection distance_function eps x x_0 (seqZ a n) with
            | Some r => r + 1 - a
            | None => n
            end).
Proof.
  unfold first_rejection.
  remember (Z.to_nat n) as k eqn:Hk. revert a n Hk.
  induction k as [|k IH]; intros a n Hk.
  - rewrite (seqZ_nil a n) by lia. cbn. by rewrite seqZ_nil by lia.
  - rewrite (seqZ_cons a n) by lia. cbn [scanned List.find].
    destruct (is_rejection (check distance_function eps x x_0 a)) eqn:Ha.
    + replace (a + 1 - a) with 1 by lia. done.
    + rewrite (IH (Z.succ a) (Z.pred n)) by lia.
      destruct (List.find _ (seqZ (Z.succ a) (Z.pred n))) as [r|] eqn:Hfind.
      * apply find_seqZ_Some in Hfind as (Hr & _ & _).
        rewrite (seqZ_cons a (r + 1 - a)) by lia.
        do 2 f_equal. lia.
      * by rewrite (seqZ_cons a n) by lia.
Qed.

Lemma scanned_range distance_function eps x (x_0 : Stat) t :
  scanned distance_function eps x x_0 (range 0 t)
  = range 0 (scan_end distance_function eps x x_0 t).
Proof.
  unfold scan_end, range. rewrite scanned_seqZ.
  destruct (first_rejection _ _ _ _ _) as [r|].
  - f_equal; lia.
  - destruct (decide (0 <= t)); [f_equal; lia|]. by rewrite !seqZ_nil by lia.
Qed.

Lemma all_non_skipped_first_rejection distance_function eps x (x_0 : Stat) ts :
  all_non_skipped distance_function eps x x_0 ts
  = bool_decide (first_rejection distance_function eps x x_0 ts = None).
Proof.
  unfold all_non_skipped, first_rejection.
  induction ts as [|t' ts IH]; [done|]. cbn [forallb List.find].
  destruct (is_rejection _); [done|]. by rewrite IH.
Qed.

Lemma is_rejection_false (o : outcome) : is_rejection o = false <-> o <> Rejects.
Proof. destruct o; cbn; split; intros; congruence. Qed.

Lemma first_rejection_range_Some distance_function eps x (x_0 : Stat) t r :
  first_rejection distance_function eps x x_0 (range 0 t) = Some r ->
  0 <= r < t
  /\ check distance_function eps x x_0 r = Rejects
  /\ forall s, 0 <= s < r -> check distance_function eps x x_0 s <> Rejects.
Proof.
  unfold first_rejection, range. intros (Hr & Hrej & Hbefore)%find_seqZ_Some.
  split; [lia|]. split.
  - destruct (check _ _ _ _ r); done.
  - intros s Hs. apply is_rejection_false. apply Hbefore. lia.
Qed.

Lemma first_rejection_range_None distance_function eps x (x_0 : Stat) t :
  first_rejection distance_function eps x x_0 (range 0 t) = None ->
  forall s, 0 <= s < t -> check distance_function eps x x_0 s <> Rejects.
Proof.
  unfold first_rejection, range. intros Hnone s Hs.
  apply is_rejection_false. apply (find_seqZ_None _ _ _ Hnone). lia.
Qed.

(** C1.  When the check of the current generation accepts,
    [accept_use_complete_history] returns the current distance together
    with the conjunction of the current check and of the checks of the prior
    generations that did not raise.  It consults the prior generations
    0, 1, ... in increasing order and stops just after the first one that
    rejects: the calls logged after the two calls for [t] are those of the
    generations below [n], where [n] is one past the first rejecting
    generation, and [t] when none rejects.  When the check of the current
    generation rejects, the function returns at once, having called the
    callables for [t] only. *)
Theorem complete_history_scan t distance_function eps x (x_0 : Stat) d e log :
  distance_function t x x_0 = Ok d -> eps t = Ok e ->
  (Qle_bool d e = true ->
     let n := scan_end distance_function eps x x_0 t in
     let accept :=
       Qle_bool d e && all_non_skipped distance_function eps x x_0 (range 0 t) in
     accept_use_complete_history t distance_function eps x x_0 log
     = (Ok (d, accept),
        log ++ [CallDistance t; CallEps t]
          ++ flat_map (calls_of distance_function x x_0) (range 0 n))
     /\ 0 <= n <= Z.max 0 t
     /\ (forall r,
           0 <= r < t ->
           check distance_function eps x x_0 r = Rejects ->
           (forall s, 0 <= s < r ->
                      check distance_function eps x x_0 s <> Rejects) ->
           n = r + 1 /\ accept = false)
     /\ ((forall s, 0 <= s < t ->
                    check distance_function eps x x_0 s <> Rejects) ->
         n = Z.max 0 t /\ accept = true))
  /\ (Qle_bool d e = false ->
      accept_use_complete_history t distance_function eps x x_0 log
      = (Ok (d, false), log ++ [CallDistance t; CallEps t])).
Proof.
  intros Hd He. rewrite complete_history_unfold, Hd, He. split.
  - intros Hle. rewrite Hle. cbn zeta. rewrite andb_true_l.
    rewrite scanned_range, all_non_skipped_first_rejection.
    split; [done|]. unfold scan_end.
    destruct (first_rejection distance_function eps x x_0 (range 0 t))
      as [r'|] eqn:Hfirst.
    + apply first_rejection_range_Some in Hfirst as (Hr' & Hrej' & Hbefore').
      split; [lia|]. split.
      * intros r Hr Hrej Hbefore. split; [|done].
        destruct (Z.lt_trichotomy r r') as [Hlt|[->|Hgt]]; [|done|].
        -- destruct (Hbefore' r); [lia|done].
        -- destruct (Hbefore r'); [lia|done].
      * intros Hall. destruct (Hall r'); done.
    + pose proof (first_rejection_range_None _ _ _ _ _ Hfirst) as Hall.
      split; [lia|]. split; [|done].
      intros r Hr Hrej _. destruct (Hall r); done.
  - by intros ->.
Qed.

(** C2.  [accept_use_current_time] returns the pair of the distance
    [d = distance_function(t, x, x_0)] and of the flag [d <= eps(t)]; the
    flag is true exactly when [d <= eps(t)], in particular when the two are
    equal.  Whatever the callables do, every call it makes is for
    generation [t]. *)
Theorem current_time_decision t distance_function eps x (x_0 : Stat) log :
  (forall d e,
      distance_function t x x_0 = Ok d -> eps t = Ok e ->
      accept_use_current_time t distance_function eps x x_0 log
      = (Ok (d, Qle_bool d e), log ++ [CallDistance t; CallEps t])
      /\ (Qle_bool d e = true <-> (d <= e)%Q)
      /\ ((d == e)%Q -> Qle_bool d e = true))
  /\ (exists calls,
         (accept_use_current_time t distance_function eps x x_0 log).2
         = log ++ calls
         /\ Forall (fun c => call_time c = t) calls).
Proof.
  rewrite current_time_unfold. split.
  - intros d e -> ->. split; [done|]. split; [apply Qle_bool_iff|].
    intros Heq. apply Qle_bool_iff. rewrite Heq. apply Qle_refl.
  - destruct (distance_function t x x_0) as [d|ex].
    + destruct (eps t) as [e|ex];
        (exists [CallDistance t; CallEps t]; split; [done|];
         repeat constructor).
    + exists [CallDistance t]. split; [done|]. repeat constructor.
Qed.

Lemma all_non_skipped_filter distance_function eps x (x_0 : Stat) ts :
  all_non_skipped distance_function eps x x_0 ts
  = forallb (fun t' => is_acceptance (check distance_function eps x x_0 t'))
      (non_skipped distance_function eps x x_0 ts).
Proof.
  unfold all_non_skipped, non_skipped.
  induction ts as [|t' ts IH]; [done|].
  rewrite filter_cons. cbn [forallb]. rewrite IH.
  destruct (check distance_function eps x x_0 t') eqn:Hc; cbn;
    case_decide; cbn; rewrite ?Hc; done.
Qed.

(** C3.  A prior generation for which the distance function or the
    threshold provider raises is skipped by [accept_use_complete_history]:
    the function still returns normally, and its flag is the conjunction of
    the current check and of the verdicts of the prior generations that did
    not raise, the skipped ones left out.  In particular, when generation 0
    fails, generations 1 and 2 succeed and the check of the current
    generation 2 accepts, the decision is the outcome of the check of
    generation 1. *)
Theorem skipped_generations_ignored :
  (forall t distance_function eps x (x_0 : Stat) d e log,
      distance_function t x x_0 = Ok d -> eps t = Ok e ->
      (accept_use_complete_history t distance_function eps x x_0 log).1
      = Ok (d, Qle_bool d e
               && forallb
                    (fun t' =>
                       is_acceptance (check distance_function eps x x_0 t'))
                    (non_skipped distance_function eps x x_0 (range 0 t))))
  /\ (forall distance_function eps x (x_0 : Stat) d1 e1 d2 e2 log,
        check distance_function eps x x_0 0 = Skipped ->
        distance_function 1 x x_0 = Ok d1 -> eps 1 = Ok e1 ->
        distance_function 2 x x_0 = Ok d2 -> eps 2 = Ok e2 ->
        Qle_bool d2 e2 = true ->
        (accept_use_complete_history 2 distance_function eps x x_0 log).1
        = Ok (d2, Qle_bool d1 e1)).
Proof.
  split.
  - intros t distance_function eps x x_0 d e log Hd He.
    rewrite complete_history_unfold, Hd, He, <- all_non_skipped_filter.
    by destruct (Qle_bool d e).
  - intros distance_function eps x x_0 d1 e1 d2 e2 log H0 Hd1 He1 Hd2 He2 Hle.
    rewrite complete_history_unfold, Hd2, He2, Hle. cbn [fst]. do 2 f_equal.
    change (range 0 2) with [0; 1]. unfold all_non_skipped. cbn [forallb].
    rewrite H0, (check_returns _ _ _ _ _ _ _ Hd1 He1).
    by destruct (Qle_bool d1 e1).
Qed.

(** C4.  [accept_use_complete_history] raises exactly when the distance
    function or the threshold provider raises for the current generation
    [t], and it then raises that exception; nothing raised for a prior
    generation escapes. *)
Theorem only_current_failure_escapes t distance_function eps x (x_0 : Stat)
    log ex :
  (accept_use_complete_history t distance_function eps x x_0 log).1 = Raise ex
  <-> distance_function t x x_0 = Raise ex
      \/ (exists d, distance_function t x x_0 = Ok d /\ eps t = Raise ex).
Proof.
  rewrite complete_history_unfold.
  destruct (distance_function t x x_0) as [d|ex1].
  - destruct (eps t) as [e|ex2].
    + split.
      * by destruct (Qle_bool d e).
      * intros [?|(d' & _ & ?)]; done.
    + split.
      * intros [= ->]. right. by exists d.
      * intros [?|(d' & _ & [= ->])]; done.
  - split.
    + intros [= ->]. by left.
    + intros [[= ->]|(d' & ? & _)]; done.
Qed.

(** C5.  Whenever [accept_use_complete_history] returns, the distance it
    returns is [distance_function(t, x, x_0)], the distance of the current
    generation. *)
Theorem returned_distance_is_current t distance_function eps x (x_0 : Stat)
    log d accept :
  (accept_use_complete_history t distance_function eps x x_0 log).1
  = Ok (d, accept) ->
  distance_function t x x_0 = Ok d.
Proof.
  rewrite complete_history_unfold.
  destruct (distance_function t x x_0) as [d'|ex]; [|done].
  destruct (eps t) as [e|ex]; [|done].
  destruct (Qle_bool d' e); by intros [= -> _].
Qed.

(** C10.  If [accept_use_complete_history] accepts, then so does
    [accept_use_current_time] on the same inputs, with the same distance;
    and for [t = 0] the two functions behave identically. *)
Theorem complete_history_restricts_current_time :
  (forall t distance_function eps x (x_0 : Stat) log log' d,
      (accept_use_complete_history t distance_function eps x x_0 log).1
      = Ok (d, true) ->
      (accept_use_current_time t distance_function eps x x_0 log').1
      = Ok (d, true))
  /\ (forall distance_function eps x (x_0 : Stat) log,
        accept_use_complete_history 0 distance_function eps x x_0 log
        = accept_use_current_time 0 distance_function eps x x_0 log).
Proof.
  split.
  - intros t distance_function eps x x_0 log log' d.
    rewrite complete_history_unfold, current_time_unfold.
    destruct (distance_function t x x_0) as [d'|ex]; [|done].
    destruct (eps t) as [e|ex]; [|done].
    destruct (Qle_bool d' e); [|done]. by intros [= -> _].
  - intros distance_function eps x x_0 log.
    rewrite complete_history_unfold, current_time_unfold.
    destruct (distance_function 0 x x_0) as [d|ex]; [|done].
    destruct (eps 0) as [e|ex]; [|done].
    destruct (Qle_bool d e); done.
Qed.
End AcceptorFacts.

(** *** The theorems at the inputs of a continued run *)

Import Examples.

Lemma complete_history_scan_witness :
  accept_use_complete_history 3 resumed_distance resumed_eps 2%Q 0%Q []
  = (Ok (4%Q, false),
     [CallDistance 3; CallEps 3; CallDistance 0; CallDistance 1; CallEps 1])
  /\ accept_use_complete_history 3 resumed_distance resumed_eps 3%Q 0%Q []
     = (Ok (9%Q, false), [CallDistance 3; CallEps 3]).
Proof.
  split.
  - exact (proj1 (proj1 (complete_history_scan 3 resumed_distance resumed_eps
                           2%Q 0%Q 4%Q 5%Q [] eq_refl eq_refl) eq_refl)).
  - exact (proj2 (complete_history_scan 3 resumed_distance resumed_eps
                    3%Q 0%Q 9%Q 5%Q [] eq_refl eq_refl) eq_refl).
Defined.

Lemma current_time_decision_witness :
  accept_use_current_time 2 resumed_distance resumed_eps 3%Q 0%Q []
  = (Ok (9%Q, true), [CallDistance 2; CallEps 2]).
Proof.
  exact (proj1 (proj1 (current_time_decision 2 resumed_distance resumed_eps
                         3%Q 0%Q []) 9%Q 9%Q eq_refl eq_refl)).
Defined.

Lemma skipped_generations_ignored_witness :
  (accept_use_complete_history 3 resumed_distance resumed_eps 2%Q 0%Q []).1
  = Ok (4%Q, false)
  /\ (accept_use_complete_history 2 resumed_distance resumed_eps 1%Q 0%Q []).1
     = Ok (1%Q, true).
Proof.
  split.
  - exact (proj1 (skipped_generations_ignored (Stat := Q)) 3 resumed_distance resumed_eps
             2%Q 0%Q 4%Q 5%Q [] eq_refl eq_refl).
  - exact (proj2 (skipped_generations_ignored (Stat := Q)) resumed_distance resumed_eps
             1%Q 0%Q 1%Q 3%Q 1%Q 9%Q [] eq_refl eq_refl eq_refl eq_refl
             eq_refl eq_refl).
Defined.

Lemma only_current_failure_escapes_witness :
  (accept_use_complete_history 0 resumed_distance resumed_eps 2%Q 0%Q []).1
  = Raise (KeyError "no distance weights for generation 0").
Proof.
  apply (proj2 (only_current_failure_escapes 0 resumed_distance resumed_eps
                  2%Q 0%Q [] _)).
  left. reflexivity.
Defined.

Lemma returned_distance_is_current_witness :
  resumed_distance 3 2%Q 0%Q = Ok 4%Q.
Proof.
  exact (returned_distance_is_current 3 resumed_distance resumed_eps
           2%Q 0%Q [] 4%Q false eq_refl).
Defined.

Lemma complete_history_restricts_current_time_witness :
  (accept_use_current_time 2 resumed_distance resumed_eps 1%Q 0%Q []).1
  = Ok (1%Q, true).
Proof.
  exact (proj1 (complete_history_restricts_current_time (Stat := Q)) 2 resumed_distance
           resumed_eps 1%Q 0%Q [] [] 1%Q eq_refl).
Defined.

(** * Properties of the schedules *)

Import Schedules.

Lemma frozen_freeze_fresh look_up t v :
  look_up !! t = None -> frozen (freeze t v look_up) t = Ok v.
Proof. intros H. unfold frozen, freeze. by rewrite H, lookup_insert_eq. Qed.

Lemma frozen_freeze_stable look_up t t' v v' :
  frozen look_up t = Ok v -> frozen (freeze t' v' look_up) t = Ok v.
Proof.
  unfold frozen, freeze. intros Hv.
  destruct (look_up !! t') eqn:Ht'; [done|].
  destruct (decide (t' = t)) as [->|Hne].
  - by rewrite Ht' in Hv.
  - by rewrite lookup_insert_ne.
Qed.

Lemma perform_stable eps op t v :
  schedule eps t = Ok v -> schedule (perform eps op) t = Ok v.
Proof.
  intros Hv. destruct op as [t' gwd gar max_nr config|t' gwd gar rate config|t'];
    [| |done].
  - destruct eps as [| | |q|temp]; try done; cbn in *.
    + unfold quantile_initialize, quantile_update.
      destruct (initial_epsilon q); cbn.
      * by apply frozen_freeze_stable.
      * destruct (weighted_quantile _ _); cbn; [|done].
        by apply frozen_freeze_stable.
    + by apply frozen_freeze_stable.
  - destruct eps as [| | |q|temp]; try done; cbn in *.
    + unfold quantile_update.
      destruct (weighted_quantile _ _); cbn; [|done].
      by apply frozen_freeze_stable.
    + unfold temperature_update.
      destruct (is_final_generation temp t'); cbn.
      * by apply frozen_freeze_stable.
      * destruct config; cbn; [|done].
        destruct (propose _ _); cbn; [|done].
        by apply frozen_freeze_stable.
Qed.

(** C9.  Once a value can be read for generation [t] from an epsilon or
    temperature schedule, it is read unchanged after any further sequence
    of [initialize], [update] and lookup operations. *)
Theorem frozen_value_is_stable (eps : Epsilon) (t : nat) (v : threshold)
    (ops : list operation) :
  schedule eps t = Ok v -> schedule (run eps ops) t = Ok v.
Proof.
  unfold run. revert eps. induction ops as [|op ops IH]; intros eps Hv; [done|].
  cbn [foldl]. apply IH. by apply perform_stable.
Qed.

(** C8.  A list schedule returns the entry at position [t] for every [t]
    below the length of the list and fails with an index error for every
    other [t]; [ListEpsilon([3.5, 2.3, 1, 0.3])(4)] fails. *)
Theorem list_epsilon_schedule :
  (forall (values : list Q) (t : nat),
      (t < length values)%nat ->
      exists v, values !! t = Some v
                /\ schedule (ListEpsilon values) t = Ok (Finite v))
  /\ (forall (values : list Q) (t : nat),
        (length values <= t)%nat ->
        exists msg, schedule (ListEpsilon values) t = Raise (IndexError msg))
  /\ (exists msg,
         schedule (ListEpsilon [35 # 10; 23 # 10; 1; 3 # 10]%Q) 4
         = Raise (IndexError msg)).
Proof.
  split; [|split].
  - intros values t Hlt. destruct (lookup_lt_is_Some_2 values t Hlt) as [v Hv].
    exists v. split; [done|]. cbn. by rewrite Hv.
  - intros values t Hge. eexists. cbn. by rewrite (lookup_ge_None_2 values t Hge).
  - by eexists.
Qed.

Lemma insert_by_distance_perm p l : insert_by_distance p l ≡ₚ p :: l.
Proof.
  induction l as [|q l IH]; [done|]. cbn.
  destruct (Qle_bool p.1 q.1); [done|]. rewrite IH. apply Permutation_swap.
Qed.

Lemma sort_by_distance_perm l : sort_by_distance l ≡ₚ l.
Proof.
  induction l as [|p l IH]; [done|]. cbn.
  rewrite insert_by_distance_perm. by rewrite IH.
Qed.

Lemma insert_by_distance_sorted p l :
  StronglySorted by_distance l ->
  StronglySorted by_distance (insert_by_distance p l).
Proof.
  induction l as [|q l IH]; intros Hsorted; cbn.
  - repeat constructor.
  - apply StronglySorted_cons in Hsorted as [Hall Hsorted].
    destruct (Qle_bool p.1 q.1) eqn:Hle.
    + apply Qle_bool_iff in Hle. apply StronglySorted_cons. split.
      * constructor; [done|]. eapply Forall_impl; [exact Hall|].
        intros r Hr. unfold by_distance in *. by apply Qle_trans with q.1.
      * by apply StronglySorted_cons.
    + apply StronglySorted_cons. split; [|by apply IH].
      rewrite insert_by_distance_perm. constructor; [|done].
      unfold by_distance. apply Qlt_le_weak, Qnot_le_lt.
      rewrite <- Qle_bool_iff. congruence.
Qed.

Lemma sort_by_distance_sorted l :
  StronglySorted by_distance (sort_by_distance l).
Proof.
  induction l as [|p l IH]; cbn; [constructor|].
  by apply insert_by_distance_sorted.
Qed.

Lemma normalize_fst l : (normalize l).*1 = l.*1.
Proof. unfold normalize. generalize (total_weight l). intros s.
  induction l as [|p l IH]; [done|]. cbn. by rewrite IH. Qed.

Lemma total_weight_cons p l : total_weight (p :: l) = (p.2 + total_weight l)%Q.
Proof. reflexivity. Qed.

Lemma crossing_reaches alpha acc l q :
  crossing alpha acc l = Some q ->
  exists (i : nat) v w,
    l !! i = Some (v, w)
    /\ (forall j, (j < i)%nat ->
                  ~ (alpha <= acc + total_weight (take (S j) l))%Q)
    /\ (alpha <= acc + total_weight (take (S i) l))%Q
    /\ match l !! S i with
       | Some (v', _) => q = ((v + v') / 2)%Q
       | None => q = v
       end.
Proof.
  revert acc. induction l as [|[v w] l IH]; intros acc; [done|].
  cbn [crossing]. destruct (Qle_bool alpha (acc + w)) eqn:Hle.
  - intros Hq. exists 0%nat, v, w. split; [done|]. split; [intros j; lia|].
    split.
    + apply Qle_bool_iff in Hle. cbn [take]. rewrite total_weight_cons.
      cbn. by rewrite Qplus_0_r.
    + cbn. destruct l as [|[v' w'] l]; by injection Hq.
  - intros Hq. destruct (IH _ Hq) as (i & vi & wi & Hi & Hbefore & Hat & Hnext).
    exists (S i), vi, wi. split; [done|]. split; [|split; [|done]].
    + intros [|j] Hj.
      * cbn [take]. rewrite total_weight_cons. cbn. rewrite Qplus_0_r.
        rewrite <- Qle_bool_iff. congruence.
      * cbn [take]. rewrite total_weight_cons. cbn [snd].
        rewrite Qplus_assoc. apply Hbefore. lia.
    + cbn [take]. rewrite total_weight_cons. cbn [snd].
      by rewrite Qplus_assoc.
Qed.

Lemma crossing_never_reaches alpha acc l :
  crossing alpha acc l = None ->
  forall i, (i < length l)%nat ->
            ~ (alpha <= acc + total_weight (take (S i) l))%Q.
Proof.
  revert acc. induction l as [|[v w] l IH]; intros acc; [cbn; lia|].
  cbn [crossing]. destruct (Qle_bool alpha (acc + w)) eqn:Hle.
  - by destruct l as [|[v' w'] l].
  - intros Hnone [|i] Hi; cbn [take]; rewrite total_weight_cons; cbn [snd].
    + cbn. rewrite Qplus_0_r. rewrite <- Qle_bool_iff. congruence.
    + rewrite Qplus_assoc. apply (IH _ Hnone). cbn in Hi. lia.
Qed.

Lemma sorted_lookup {A} (R : relation A) (l : list A) i j a b :
  StronglySorted R l -> (i < j)%nat ->
  l !! i = Some a -> l !! j = Some b -> R a b.
Proof.
  intros Hsorted. revert i j. induction Hsorted as [|x l Hsorted IH Hall];
    intros i j Hij Hi Hj; [done|].
  destruct j as [|j]; [lia|]. destruct i as [|i].
  - injection Hi as ->. rewrite Forall_forall in Hall. apply Hall.
    by eapply list_elem_of_lookup_2.
  - apply (IH i j); [lia|done|done].
Qed.

Lemma normalize_sorted l :
  StronglySorted by_distance l -> StronglySorted by_distance (normalize l).
Proof.
  unfold normalize. generalize (total_weight l). intros s.
  induction 1 as [|p l Hsorted IH Hall]; cbn; [constructor|].
  constructor; [done|]. rewrite Forall_forall in *.
  intros q [r [-> Hr]]%list_elem_of_fmap. exact (Hall r Hr).
Qed.

Lemma normalize_lookup l i :
  normalize l !! i
  = (fun p => (p.1, p.2 / total_weight l)%Q) <$> l !! i.
Proof.
  unfold normalize. generalize (total_weight l). intros s. revert i.
  induction l as [|p l IH]; intros [|i]; cbn; [done|done|done|apply IH].
Qed.

Lemma total_weight_perm l l' :
  l ≡ₚ l' -> (total_weight l == total_weight l')%Q.
Proof.
  induction 1 as [|p l l' _ IH|p q l|l1 l2 l3 _ IH1 _ IH2].
  - reflexivity.
  - rewrite !total_weight_cons. by rewrite IH.
  - rewrite !total_weight_cons. rewrite !Qplus_assoc.
    by rewrite (Qplus_comm q.2 p.2).
  - by rewrite IH1.
Qed.

Lemma total_weight_scaled (s : Q) l :
  (total_weight (map (fun p => (p.1, p.2 / s)%Q) l) == total_weight l / s)%Q.
Proof.
  induction l as [|p l IH]; [reflexivity|].
  cbn [map]. rewrite !total_weight_cons. cbn [snd]. rewrite IH.
  unfold Qdiv. by rewrite Qmult_plus_distr_l.
Qed.

Lemma normalize_total l :
  ~ (total_weight l == 0)%Q -> (total_weight (normalize l) == 1)%Q.
Proof.
  intros Hmass. unfold normalize. rewrite total_weight_scaled.
  unfold Qdiv. by apply Qmult_inv_r.
Qed.

(** C7.  A quantile-based schedule with an [initial_epsilon] is frozen by
    [initialize] to exactly that value, without looking at the sample.
    [update] freezes [quantile_multiplier] times the [alpha]-quantile of the
    sample, under its weights when [weighted] and under equal weights (the
    same distances, each with weight 1) otherwise, and raises when the
    sample has no such quantile.  The
    quantile is taken on the sample sorted by ascending distance (a
    rearrangement of it) with each weight divided by the total weight, so
    that the weights sum to 1: with [v] the first value at which the
    cumulative weight reaches [alpha], it is the midpoint of [v] and the
    next value, and [v] itself when there is none.  For
    [QuantileEpsilon(initial_epsilon=5.1, alpha=0.5,
    quantile_multiplier=1.1, weighted=False)] and the distances
    [1, 2, 3, 4] with the weights [2, 1, 1, 1]: the schedule is exactly 5.1
    at 0 after [initialize], the 0.5-quantile is 2.5 (under equal weights,
    and under the given weights as well), and the schedule is
    [1.1 * 2.5 = 2.75] at 1 after [update]. *)
Theorem quantile_epsilon_schedule :
  (forall (eps : quantile_epsilon) v0 t gwd gar max_nr config,
      initial_epsilon eps = Some v0 ->
      initialize (QuantileEpsilon eps) t gwd gar max_nr config
      = Ok (QuantileEpsilon
              (set_look_up eps (freeze t (Finite v0) (look_up eps))))
      /\ (look_up eps !! t = None ->
          schedule
            (QuantileEpsilon
               (set_look_up eps (freeze t (Finite v0) (look_up eps)))) t
          = Ok (Finite v0)))
  /\ (forall (eps : quantile_epsilon) t gwd gar rate config,
        let points :=
          if weighted eps then gwd () else equal_weights (gwd ()) in
        match weighted_quantile points (alpha eps) with
        | Ok quantile =>
            let value := Finite (quantile_multiplier eps * quantile)%Q in
            update (QuantileEpsilon eps) t gwd gar rate config
            = Ok (QuantileEpsilon
                    (set_look_up eps (freeze t value (look_up eps))))
            /\ (look_up eps !! t = None ->
                schedule
                  (QuantileEpsilon
                     (set_look_up eps (freeze t value (look_up eps)))) t
                = Ok value)
        | Raise e =>
            update (QuantileEpsilon eps) t gwd gar rate config = Raise e
        end)
  /\ (forall (points : weighted_distances),
        (equal_weights points).*1 = points.*1
        /\ Forall (fun p => p.2 = 1%Q) (equal_weights points))
  /\ (forall (points : weighted_distances) (alpha : Q),
        let sorted := normalize (sort_by_distance points) in
        sorted.*1 ≡ₚ points.*1
        /\ (forall i j p q,
              (i < j)%nat -> sorted !! i = Some p -> sorted !! j = Some q ->
              (p.1 <= q.1)%Q)
        /\ (forall i v w,
              sorted !! i = Some (v, w) ->
              exists w0, (v, w0) ∈ points
                         /\ (w == w0 / total_weight points)%Q)
        /\ (~ (total_weight points == 0)%Q -> (total_weight sorted == 1)%Q)
        /\ match weighted_quantile points alpha with
           | Ok quantile =>
               exists (i : nat) v w,
                 sorted !! i = Some (v, w)
                 /\ (forall j, (j < i)%nat ->
                               ~ (alpha <= total_weight (take (S j) sorted))%Q)
                 /\ (alpha <= total_weight (take (S i) sorted))%Q
                 /\ match sorted !! S i with
                    | Some (v', _) =>
                        (v <= v')%Q /\ quantile = ((v + v') / 2)%Q
                    | None => quantile = v
                    end
           | Raise _ =>
               forall i, (i < length sorted)%nat ->
                         ~ (alpha <= total_weight (take (S i) sorted))%Q
           end)
  /\ ((eps0 ← initialize test_quantile_epsilon 0 test_df test_no_records
                None None;
       schedule eps0 0) = Ok (Finite (51 # 10))
      /\ (exists quantile,
             weighted_quantile (equal_weights (test_df ())) (1 # 2)
             = Ok quantile
             /\ (quantile == 5 # 2)%Q)
      /\ (exists quantile,
             weighted_quantile (test_df ()) (1 # 2) = Ok quantile
             /\ (quantile == 5 # 2)%Q)
      /\ (exists v,
             (eps0 ← initialize test_quantile_epsilon 0 test_df
                       test_no_records None None;
              eps1 ← update eps0 1 test_df test_no_records None None;
              schedule eps1 1) = Ok (Finite v)
             /\ (v == (11 # 10) * (5 # 2))%Q
             /\ (v == 275 # 100)%Q)).
Proof.
  split; [|split; [|split; [|split]]].
  - intros eps v0 t gwd gar max_nr config Hinit. split.
    + cbn. unfold quantile_initialize. by rewrite Hinit.
    + intros Hfresh. cbn. unfold frozen, freeze.
      by rewrite Hfresh, lookup_insert_eq.
  - intros eps t gwd gar rate config points.
    cbn [update]. unfold quantile_update. fold points.
    destruct (weighted_quantile points (alpha eps)) as [quantile|e]; [|done].
    cbn zeta. split; [done|]. intros Hfresh. cbn. unfold frozen, freeze.
    by rewrite Hfresh, lookup_insert_eq.
  - intros points. unfold equal_weights.
    induction points as [|p points [IHfst IHsnd]]; [by split|].
    cbn. split; [by rewrite IHfst|by constructor].
  - intros points alpha sorted.
    assert (Hsorted : StronglySorted by_distance sorted)
      by apply normalize_sorted, sort_by_distance_sorted.
    split; [|split; [|split; [|split]]].
    + unfold sorted. rewrite normalize_fst.
      apply fmap_Permutation, sort_by_distance_perm.
    + intros i j p q Hij Hp Hq.
      exact (sorted_lookup by_distance sorted i j p q Hsorted Hij Hp Hq).
    + intros i v w Hi. unfold sorted in Hi. rewrite normalize_lookup in Hi.
      destruct (sort_by_distance points !! i) as [[v0 w0]|] eqn:Hi0; [|done].
      injection Hi as <- <-. exists w0. split.
      * rewrite <- (sort_by_distance_perm points).
        by eapply list_elem_of_lookup_2.
      * cbn [fst snd].
        by rewrite (total_weight_perm _ _ (sort_by_distance_perm points)).
    + intros Hmass. apply normalize_total.
      by rewrite (total_weight_perm _ _ (sort_by_distance_perm points)).
    + unfold weighted_quantile. fold sorted.
      destruct (crossing alpha 0 sorted) as [quantile|] eqn:Hcross.
      * apply crossing_reaches in Hcross
          as (i & v & w & Hi & Hbefore & Hat & Hnext).
        exists i, v, w. split; [done|]. split; [|split].
        -- intros j Hj. specialize (Hbefore j Hj).
           by rewrite Qplus_0_l in Hbefore.
        -- by rewrite Qplus_0_l in Hat.
        -- destruct (sorted !! S i) as [[v' w']|] eqn:Hnext'; [|done].
           split; [|done].
           apply (sorted_lookup by_distance sorted i (S i) (v, w) (v', w'));
             [done|lia|done|done].
      * intros i Hi.
        pose proof (crossing_never_reaches alpha 0 sorted Hcross i Hi) as Hno.
        by rewrite Qplus_0_l in Hno.
  - split; [by vm_compute|]. split; [|split].
    + eexists. split; [by vm_compute|done].
    + eexists. split; [by vm_compute|done].
    + eexists. split; [by vm_compute|]. split; by vm_compute.
Qed.


Lemma freeze_lookup_other look_up t t' v :
  t <> t' -> freeze t' v look_up !! t = look_up !! t.
Proof.
  intros Hne. unfold freeze. destruct (look_up !! t'); [done|].
  by rewrite lookup_insert_ne.
Qed.

Lemma temperature_update_final temp t n gwd gar rate config :
  max_nr_populations temp = Some n -> Z.of_nat t = n - 1 ->
  temperature_update temp t gwd gar rate config
  = Ok (set_temperatures temp (freeze t (Finite 1) (temperatures temp))).
Proof.
  intros Hmax Ht. unfold temperature_update, is_final_generation.
  by rewrite Hmax, (proj2 (Z.eqb_eq _ _) Ht).
Qed.

Lemma perform_update_temperature temp t' gwd gar rate config :
  exists temp',
    perform (Temperature temp) (Update t' gwd gar rate config)
    = Temperature temp'
    /\ max_nr_populations temp' = max_nr_populations temp
    /\ forall t, t <> t' -> temperatures temp' !! t = temperatures temp !! t.
Proof.
  cbn. unfold temperature_update.
  destruct (is_final_generation temp t'); cbn.
  - eexists. split; [done|]. split; [done|]. cbn.
    intros t Hne. by apply freeze_lookup_other.
  - destruct config as [c|]; cbn; [|by exists temp].
    destruct (propose _ _) as [temps|ex]; cbn; [|by exists temp].
    eexists. split; [done|]. split; [done|]. cbn.
    intros t Hne. by apply freeze_lookup_other.
Qed.

(** C6.  An [update] of a temperature schedule for the final generation
    [max_nr_populations - 1] never raises, whatever the schemes, the
    aggregation rule, the acceptance rate and the configuration are, and
    freezes the value 1 for that generation, which a generation first
    computed by this update then reads back.  In the run of
    [test_temperature] (three populations) generation 2 reads 1, whether or
    not the schemes could be evaluated for generation 1. *)
Theorem temperature_final_generation :
  (forall (temp : temperature) (t : nat) (n : Z),
      max_nr_populations temp = Some n -> Z.of_nat t = n - 1 ->
      forall ss agg gwd gar rate config,
      exists temp',
        update (Temperature (set_schemes temp ss agg)) t gwd gar rate config
        = Ok (Temperature temp')
        /\ temperatures temp' = freeze t (Finite 1) (temperatures temp)
        /\ (temperatures temp !! t = None ->
            schedule (Temperature temp') t = Ok (Finite 1)))
  /\ (forall ss agg initial gwd0 gar0 config0 gwd1 gar1 rate1 config1
             gwd2 gar2 rate2 config2,
        schedule
          (run (Temperature {| schemes := ss;
                               aggregate_fun := agg;
                               initial_temperature := initial;
                               max_nr_populations := None;
                               temperatures := ∅ |})
               [Initialize 0 gwd0 gar0 (Some 3) config0;
                Update 1 gwd1 gar1 rate1 config1;
                Update 2 gwd2 gar2 rate2 config2]) 2%nat
        = Ok (Finite 1)).
Proof.
  split.
  - intros temp t n Hmax Ht ss agg gwd gar rate config.
    eexists. cbn [update].
    rewrite (temperature_update_final _ t n) by done.
    split; [done|]. split; [done|]. cbn. apply frozen_freeze_fresh.
  - intros. unfold run. cbn [foldl].
    change (perform _ (Initialize _ _ _ _ _))
      with (Temperature {| schemes := ss;
                           aggregate_fun := agg;
                           initial_temperature := initial;
                           max_nr_populations := Some 3;
                           temperatures := freeze 0 (Finite initial) ∅ |}).
    destruct (perform_update_temperature
                {| schemes := ss;
                   aggregate_fun := agg;
                   initial_temperature := initial;
                   max_nr_populations := Some 3;
                   temperatures := freeze 0 (Finite initial) ∅ |}
                1%nat gwd1 gar1 rate1 config1)
      as (temp1 & -> & Hmax & Hother).
    cbn [perform update].
    rewrite (temperature_update_final temp1 2%nat 3) by done.
    cbn. apply frozen_freeze_fresh. by rewrite Hother.
Qed.

Lemma frozen_value_is_stable_witness :
  schedule
    (run test_quantile_epsilon
       [Initialize 0 test_df test_no_records None None;
        Update 1 test_df test_no_records None None;
        Initialize 0 test_df test_no_records (Some 3) None;
        Update 0 test_df test_no_records None None;
        Lookup 0]) 0%nat
  = Ok (Finite (51 # 10)).
Proof.
  exact (frozen_value_is_stable
           (run test_quantile_epsilon
              [Initialize 0 test_df test_no_records None None])
           0%nat (Finite (51 # 10))
           [Update 1 test_df test_no_records None None;
            Initialize 0 test_df test_no_records (Some 3) None;
            Update 0 test_df test_no_records None None;
            Lookup 0]
           eq_refl).
Defined.

Lemma list_epsilon_schedule_witness :
  (exists v, [35 # 10; 23 # 10; 1; 3 # 10]%Q !! 1%nat = Some v
             /\ schedule test_list_epsilon 1 = Ok (Finite v))
  /\ (exists msg, schedule test_list_epsilon 7 = Raise (IndexError msg)).
Proof.
  split.
  - apply (proj1 list_epsilon_schedule). cbn. lia.
  - apply (proj1 (proj2 list_epsilon_schedule)). cbn. lia.
Defined.

Lemma temperature_final_generation_witness :
  exists temp',
    update (Temperature test_temperature) 2 test_df test_no_records
      (Some (2 # 10)) None
    = Ok (Temperature temp')
    /\ schedule (Temperature temp') 2 = Ok (Finite 1).
Proof.
  destruct (proj1 temperature_final_generation test_temperature 2%nat 3
              eq_refl eq_refl [failing_scheme] (fun _ => Infinite)
              test_df test_no_records (Some (2 # 10)) None)
    as (temp' & Hupdate & _ & Hread).
  exists temp'. split; [exact Hupdate|]. apply Hread. reflexivity.
Defined.

Lemma quantile_epsilon_schedule_witness :
  schedule
    (QuantileEpsilon
       (set_look_up Scenarios.test_quantile_record
          (freeze 0 (Finite (51 # 10)) (look_up Scenarios.test_quantile_record))))
    0%nat
  = Ok (Finite (51 # 10))
  /\ schedule
       (QuantileEpsilon
          (set_look_up
             (set_look_up Scenarios.test_quantile_record
                (freeze 0 (Finite (51 # 10)) ∅))
             (freeze 1 (Finite ((11 # 10) * (5 # 2)))
                (freeze 0 (Finite (51 # 10)) ∅))))
       1%nat
     = Ok (Finite ((11 # 10) * (5 # 2))).
Proof.
  split.
  - exact (proj2 (proj1 quantile_epsilon_schedule Scenarios.test_quantile_record
                    (51 # 10) 0%nat test_df test_no_records None None
                    eq_refl)
             eq_refl).
  - pose proof (proj1 (proj2 quantile_epsilon_schedule)
                  (set_look_up Scenarios.test_quantile_record
                     (freeze 0 (Finite (51 # 10)) ∅))
                  1%nat test_df test_no_records None None) as Hupdate.
    cbv zeta in Hupdate.
    change (weighted_quantile _ _) with (@Ok Q (5 # 2)) in Hupdate.
    exact (proj2 Hupdate eq_refl).
Defined.

(** * Further properties of the acceptors *)

Section AcceptorCalls.
Context {Stat : Type}.
Implicit Types (distance_function : Z -> Stat -> Stat -> result Q).
Implicit Types (eps : Z -> result Q) (x : Stat).
Implicit Types (t : Z) (ts : list Z) (log : list call).

Lemma scan_end_bounds distance_function eps x (x_0 : Stat) t :
  0 <= scan_end distance_function eps x x_0 t <= Z.max 0 t.
Proof.
  unfold scan_end.
  destruct (first_rejection _ _ _ _ _) as [r|] eqn:Hfirst; [|lia].
  apply first_rejection_range_Some in Hfirst as (Hr & _ & _). lia.
Qed.

Lemma calls_of_length distance_function x (x_0 : Stat) ts :
  (length (flat_map (calls_of distance_function x x_0) ts)
   <= 2 * length ts)%nat.
Proof.
  induction ts as [|t' ts IH]; [done|]. cbn [flat_map].
  rewrite length_app, length_cons. unfold calls_of at 1.
  destruct (distance_function t' x x_0); cbn [length]; lia.
Qed.

Lemma calls_of_elem distance_function x (x_0 : Stat) t' c :
  c ∈ calls_of distance_function x x_0 t' -> call_time c = t'.
Proof.
  unfold calls_of. destruct (distance_function t' x x_0).
  - intros [->|[->|[]%elem_of_nil]%elem_of_cons]%elem_of_cons; done.
  - intros [->|[]%elem_of_nil]%elem_of_cons; done.
Qed.

Lemma calls_of_NoDup_one distance_function x (x_0 : Stat) t' :
  NoDup (calls_of distance_function x x_0 t').
Proof.
  unfold calls_of. destruct (distance_function t' x x_0);
    [|apply NoDup_singleton].
  apply NoDup_cons. split; [|apply NoDup_singleton].
  by intros [=]%list_elem_of_singleton.
Qed.

Lemma calls_of_time distance_function x (x_0 : Stat) ts c :
  c ∈ flat_map (calls_of distance_function x x_0) ts -> call_time c ∈ ts.
Proof.
  induction ts as [|t' ts IH]; cbn [flat_map]; [by intros ?%elem_of_nil|].
  rewrite elem_of_app, elem_of_cons.
  intros [Hhere%calls_of_elem|Hthere]; [by left|right; auto].
Qed.

Lemma calls_of_NoDup distance_function x (x_0 : Stat) ts :
  NoDup ts -> NoDup (flat_map (calls_of distance_function x x_0) ts).
Proof.
  induction 1 as [|t' ts Hnotin Hnodup IH]; cbn [flat_map]; [constructor|].
  apply NoDup_app. split; [apply calls_of_NoDup_one|]. split; [|done].
  intros c Hc%calls_of_elem Hin%calls_of_time. apply Hnotin. by rewrite <- Hc.
Qed.

Lemma complete_history_calls t distance_function eps x (x_0 : Stat) log :
  exists n,
    0 <= n <= Z.max 0 t
    /\ ((accept_use_complete_history t distance_function eps x x_0 log).2
        = log ++ [CallDistance t]
       \/ (accept_use_complete_history t distance_function eps x x_0 log).2
          = log ++ [CallDistance t; CallEps t]
               ++ flat_map (calls_of distance_function x x_0) (range 0 n)).
Proof.
  rewrite complete_history_unfold.
  destruct (distance_function t x x_0) as [d|ex];
    [|exists 0; split; [lia|by left]].
  destruct (eps t) as [e|ex]; [|exists 0; split; [lia|by right]].
  destruct (Qle_bool d e); [|exists 0; split; [lia|by right]].
  exists (scan_end distance_function eps x x_0 t).
  split; [apply scan_end_bounds|]. right. by rewrite scanned_range.
Qed.

(** X1.  [accept_use_complete_history] starts with the distance of the
    current generation and makes at most two calls per generation from 0
    to [t], at most [2 * (t + 1)] in all (two for a negative [t]).  What
    [accept_use_current_time] calls is always the beginning of what
    [accept_use_complete_history] calls. *)
Theorem complete_history_call_budget t distance_function eps x (x_0 : Stat)
    log :
  exists calls,
    (accept_use_complete_history t distance_function eps x x_0 log).2
    = log ++ calls
    /\ head calls = Some (CallDistance t)
    /\ (length calls <= 2 * (Z.to_nat t + 1))%nat
    /\ (accept_use_current_time t distance_function eps x x_0 log).2
       `prefix_of`
       (accept_use_complete_history t distance_function eps x x_0 log).2.
Proof.
  rewrite complete_history_unfold, current_time_unfold.
  destruct (distance_function t x x_0) as [d|ex].
  2:{ exists [CallDistance t]. cbn. repeat split; [lia|done]. }
  destruct (eps t) as [e|ex].
  2:{ exists [CallDistance t; CallEps t]. cbn. repeat split; [lia|done]. }
  destruct (Qle_bool d e).
  2:{ exists [CallDistance t; CallEps t]. cbn. repeat split; [lia|done]. }
  eexists. cbn [snd]. split; [done|]. split; [done|]. split.
  - rewrite scanned_range. cbn [length app].
    pose proof (calls_of_length distance_function x x_0
                  (range 0 (scan_end distance_function eps x x_0 t))) as Hlen.
    rewrite range_length in Hlen.
    pose proof (scan_end_bounds distance_function eps x x_0 t). lia.
  - rewrite (app_assoc log). by apply prefix_app_r.
Qed.

(** X2.  [accept_use_complete_history] never looks at a later generation
    and never asks the same thing twice: every call is for [t] or for a
    generation between 0 and [t - 1], and no call is repeated. *)
Theorem complete_history_calls_in_range t distance_function eps x
    (x_0 : Stat) log :
  exists calls,
    (accept_use_complete_history t distance_function eps x x_0 log).2
    = log ++ calls
    /\ Forall (fun c => call_time c = t \/ 0 <= call_time c < t) calls
    /\ NoDup calls.
Proof.
  destruct (complete_history_calls t distance_function eps x x_0 log)
    as (n & Hn & [->| ->]).
  { exists [CallDistance t]. split; [done|]. split.
    - repeat constructor.
    - apply NoDup_singleton. }
  eexists. split; [done|].
  assert (Hin : forall c,
             c ∈ flat_map (calls_of distance_function x x_0) (range 0 n) ->
             0 <= call_time c < t).
  { intros c Hc%calls_of_time. unfold range in Hc.
    apply elem_of_seqZ in Hc. lia. }
  split.
  - apply Forall_app. split; [repeat constructor|].
    apply Forall_forall. intros c Hc. right. by apply Hin.
  - change [CallDistance t; CallEps t]
      with ([CallDistance t] ++ [CallEps t]).
    rewrite <- app_assoc. apply NoDup_app. split; [apply NoDup_singleton|].
    split.
    + intros c ->%list_elem_of_singleton [Heq|Hc]%elem_of_app.
      * by apply list_elem_of_singleton in Heq.
      * apply Hin in Hc. cbn in Hc. lia.
    + apply NoDup_app. split; [apply NoDup_singleton|]. split.
      * intros c ->%list_elem_of_singleton Hc. apply Hin in Hc. cbn in Hc. lia.
      * apply calls_of_NoDup. apply NoDup_seqZ.
Qed.
End AcceptorCalls.

Section AcceptorDecisions.
Context {Stat : Type}.
Implicit Types (distance_function : Z -> Stat -> Stat -> result Q).
Implicit Types (eps : Z -> result Q) (x : Stat).
Implicit Types (t : Z) (ts : list Z) (log : list call).

Lemma all_non_skipped_range distance_function eps x (x_0 : Stat) t :
  all_non_skipped distance_function eps x x_0 (range 0 t) = true
  <-> forall s, 0 <= s < t -> check distance_function eps x x_0 s <> Rejects.
Proof.
  rewrite all_non_skipped_first_rejection, bool_decide_eq_true. split.
  - apply first_rejection_range_None.
  - intros Hall.
    destruct (first_rejection distance_function eps x x_0 (range 0 t))
      as [r|] eqn:Hfirst; [|done].
    apply first_rejection_range_Some in Hfirst as (Hr & Hrej & _).
    by destruct (Hall r Hr).
Qed.

Lemma all_non_skipped_range_elim distance_function eps x (x_0 : Stat) t :
  all_non_skipped distance_function eps x x_0 (range 0 t) = true ->
  forall s, 0 <= s < t -> check distance_function eps x x_0 s <> Rejects.
Proof. apply all_non_skipped_range. Qed.

Lemma check_rejects distance_function eps x (x_0 : Stat) s :
  check distance_function eps x x_0 s = Rejects
  <-> exists d' e', distance_function s x x_0 = Ok d' /\ eps s = Ok e'
                    /\ Qle_bool d' e' = false.
Proof.
  unfold check. split.
  - destruct (distance_function s x x_0) as [d'|]; [|done].
    destruct (eps s) as [e'|]; [|done].
    destruct (Qle_bool d' e') eqn:Hle; [done|]. intros _. by exists d', e'.
  - intros (d' & e' & -> & -> & ->). done.
Qed.

Lemma current_time_rejects distance_function eps x (x_0 : Stat) s log d' :
  (accept_use_current_time s distance_function eps x x_0 log).1
  = Ok (d', false)
  <-> distance_function s x x_0 = Ok d'
      /\ check distance_function eps x x_0 s = Rejects.
Proof.
  rewrite current_time_unfold. unfold check.
  destruct (distance_function s x x_0) as [d|ex]; [|split; [done|by intros []]].
  destruct (eps s) as [e|ex]; [|split; [done|by intros []]].
  destruct (Qle_bool d e); cbn; split.
  - done.
  - by intros [].
  - by intros [= ->].
  - by intros [[= ->] _].
Qed.

(** X3.  The history is consulted only after the current generation has
    been accepted: for [t <= 0], where there is no history, and whenever
    [accept_use_current_time] does not return an acceptance (it rejects or
    raises), [accept_use_complete_history] does exactly what
    [accept_use_current_time] does, result and calls alike. *)
Theorem history_only_after_acceptance t distance_function eps x (x_0 : Stat)
    log :
  t <= 0
  \/ (forall d,
        (accept_use_current_time t distance_function eps x x_0 log).1
        <> Ok (d, true)) ->
  accept_use_complete_history t distance_function eps x x_0 log
  = accept_use_current_time t distance_function eps x x_0 log.
Proof.
  rewrite complete_history_unfold, current_time_unfold.
  destruct (distance_function t x x_0) as [d|ex]; [|done].
  destruct (eps t) as [e|ex]; [|done].
  destruct (Qle_bool d e); [|done]. intros [Ht|Hnot].
  - unfold range. by rewrite seqZ_nil by lia.
  - by destruct (Hnot d).
Qed.

(** X4.  Acceptance is downward closed: when
    [accept_use_complete_history] accepts at generation [t], it rejects at
    no generation from 0 to [t]; there it accepts, or raises because the
    check of that generation is not available. *)
Theorem acceptance_is_downward_closed t distance_function eps x (x_0 : Stat)
    log d :
  (accept_use_complete_history t distance_function eps x x_0 log).1
  = Ok (d, true) ->
  forall t' log' d',
    0 <= t' <= t ->
    (accept_use_complete_history t' distance_function eps x x_0 log').1
    <> Ok (d', false).
Proof.
  rewrite complete_history_unfold.
  destruct (distance_function t x x_0) as [d0|ex] eqn:Hd; [|done].
  destruct (eps t) as [e0|ex] eqn:He; [|done].
  destruct (Qle_bool d0 e0) eqn:Hle; [|done]. cbn [fst].
  intros [= _ Hall] t' log' d' Ht'.
  pose proof (all_non_skipped_range_elim _ _ _ _ _ Hall) as Hprior.
  rewrite complete_history_unfold.
  destruct (distance_function t' x x_0) as [d1|ex] eqn:Hd'; [|done].
  destruct (eps t') as [e1|ex] eqn:He'; [|done].
  assert (Hle' : Qle_bool d1 e1 = true).
  { destruct (decide (t' = t)) as [->|Hne]; [congruence|].
    destruct (Qle_bool d1 e1) eqn:Hle1; [done|].
    destruct (Hprior t'); [lia|]. apply check_rejects. by exists d1, e1. }
  rewrite Hle'. cbn [fst]. intros [= _ Hrej].
  rewrite (proj2 (all_non_skipped_range _ _ _ _ t')) in Hrej; [done|].
  intros s Hs. apply Hprior. lia.
Qed.

(** X5.  [accept_use_complete_history] accepts at [t] exactly when
    [accept_use_current_time] accepts at [t] and rejects at no generation
    from 0 to [t - 1]. *)
Theorem complete_history_by_current_time t distance_function eps x
    (x_0 : Stat) log d :
  (accept_use_complete_history t distance_function eps x x_0 log).1
  = Ok (d, true)
  <-> (accept_use_current_time t distance_function eps x x_0 log).1
      = Ok (d, true)
      /\ forall t' d',
           0 <= t' < t ->
           (accept_use_current_time t' distance_function eps x x_0 log).1
           <> Ok (d', false).
Proof.
  rewrite complete_history_unfold, (current_time_unfold t).
  destruct (distance_function t x x_0) as [d0|ex]; [|split; [done|by intros []]].
  destruct (eps t) as [e0|ex]; [|split; [done|by intros []]].
  destruct (Qle_bool d0 e0); cbn [fst]; [|split; [done|by intros []]].
  split.
  - intros [= -> Hall]. split; [done|].
    pose proof (all_non_skipped_range_elim _ _ _ _ _ Hall) as Hprior.
    intros t' d' Ht' [_ Hrej]%current_time_rejects. by destruct (Hprior t').
  - intros [[= ->] Hnone]. do 2 f_equal. apply all_non_skipped_range.
    intros s Hs Hrej.
    pose proof Hrej as (d' & e' & Hd' & _ & _)%check_rejects.
    apply (Hnone s d' Hs). by apply current_time_rejects.
Qed.

(** X6.  A rejection by [accept_use_complete_history] is owed to one
    generation, the current one or a prior one, for which both callables
    returned and the distance exceeds the threshold; the threshold lookup
    for that generation is the last call made. *)
Theorem rejection_names_its_generation t distance_function eps x (x_0 : Stat)
    log log' d :
  accept_use_complete_history t distance_function eps x x_0 log
  = (Ok (d, false), log') ->
  exists r d' e',
    (r = t \/ 0 <= r < t)
    /\ distance_function r x x_0 = Ok d' /\ eps r = Ok e'
    /\ ~ (d' <= e')%Q
    /\ last log' = Some (CallEps r).
Proof.
  rewrite complete_history_unfold.
  destruct (distance_function t x x_0) as [d0|ex] eqn:Hd; [|done].
  destruct (eps t) as [e0|ex] eqn:He; [|done].
  destruct (Qle_bool d0 e0) eqn:Hle.
  - intros [= -> Hall <-].
    rewrite all_non_skipped_first_rejection, bool_decide_eq_false in Hall.
    rewrite scanned_range. unfold scan_end.
    destruct (first_rejection distance_function eps x x_0 (range 0 t))
      as [r|] eqn:Hfirst; [|done].
    apply first_rejection_range_Some in Hfirst as (Hr & Hrej & _).
    apply check_rejects in Hrej as (d' & e' & Hd' & He' & Hle').
    exists r, d', e'. split; [by right|]. split; [done|]. split; [done|].
    split.
    + rewrite <- Qle_bool_iff. congruence.
    + unfold range. replace (r + 1 - 0) with (r + 1) by lia.
      rewrite seqZ_app by lia. rewrite flat_map_app.
      change (seqZ (0 + r) 1) with [0 + r]. cbn [flat_map].
      replace (0 + r) with r by lia. unfold calls_of at 2. rewrite Hd'.
      by rewrite last_app, (last_cons (CallDistance t)),
        (last_cons (CallEps t)), last_app.
  - intros [= -> <-]. exists t, d, e0. split; [by left|].
    split; [done|]. split; [done|]. split.
    + rewrite <- Qle_bool_iff. congruence.
    + by rewrite last_app.
Qed.

(** X7.  When, compared with the current generation, no prior generation
    has a larger distance or a smaller threshold (a distance that does not
    depend on the generation, thresholds that shrink),
    [accept_use_complete_history] returns what [accept_use_current_time]
    returns. *)
Theorem history_redundant_for_shrinking_thresholds t distance_function eps x
    (x_0 : Stat) log :
  (forall t' d' e' d e,
      0 <= t' < t ->
      distance_function t' x x_0 = Ok d' -> eps t' = Ok e' ->
      distance_function t x x_0 = Ok d -> eps t = Ok e ->
      (d' <= d)%Q /\ (e <= e')%Q) ->
  (accept_use_complete_history t distance_function eps x x_0 log).1
  = (accept_use_current_time t distance_function eps x x_0 log).1.
Proof.
  intros Hmono. rewrite complete_history_unfold, current_time_unfold.
  destruct (distance_function t x x_0) as [d|ex] eqn:Hd; [|done].
  destruct (eps t) as [e|ex] eqn:He; [|done].
  destruct (Qle_bool d e) eqn:Hle; [|done]. cbn [fst]. do 2 f_equal.
  apply all_non_skipped_range. intros s Hs.
  intros (d' & e' & Hd' & He' & Hle')%check_rejects.
  destruct (Hmono s d' e' d e Hs Hd' He' eq_refl eq_refl) as [Hdd Hee].
  apply Qle_bool_iff in Hle.
  assert (Hfinal : (d' <= e')%Q).
  { apply Qle_trans with d; [done|]. by apply Qle_trans with e. }
  apply Qle_bool_iff in Hfinal. congruence.
Qed.

(** X8.  Relaxing the thresholds never turns an acceptance into a
    rejection: if [eps'] is available for the same generations as [eps] and
    nowhere smaller, then whatever either acceptor accepts under [eps] it
    accepts under [eps'], with the same distance. *)
Theorem larger_thresholds_accept_more t distance_function eps eps' x
    (x_0 : Stat) log d :
  (forall s e, eps s = Ok e -> exists e', eps' s = Ok e' /\ (e <= e')%Q) ->
  (forall s e', eps' s = Ok e' -> exists e, eps s = Ok e) ->
  ((accept_use_current_time t distance_function eps x x_0 log).1
   = Ok (d, true) ->
   (accept_use_current_time t distance_function eps' x x_0 log).1
   = Ok (d, true))
  /\ ((accept_use_complete_history t distance_function eps x x_0 log).1
      = Ok (d, true) ->
      (accept_use_complete_history t distance_function eps' x x_0 log).1
      = Ok (d, true)).
Proof.
  intros Hlarger Havail.
  assert (Hstep : forall s d0 e0,
             distance_function s x x_0 = Ok d0 -> eps s = Ok e0 ->
             Qle_bool d0 e0 = true ->
             exists e1, eps' s = Ok e1 /\ Qle_bool d0 e1 = true).
  { intros s d0 e0 _ He0 Hle. destruct (Hlarger s e0 He0) as (e1 & He1 & Hee).
    exists e1. split; [done|]. apply Qle_bool_iff.
    apply Qle_trans with e0; [by apply Qle_bool_iff|done]. }
  rewrite !complete_history_unfold, !current_time_unfold.
  destruct (distance_function t x x_0) as [d0|ex] eqn:Hd; [|done].
  destruct (eps t) as [e0|ex] eqn:He; [|done].
  destruct (Qle_bool d0 e0) eqn:Hle; [|done].
  destruct (Hstep t d0 e0 Hd He Hle) as (e1 & -> & ->). cbn [fst].
  split; [done|].
  intros [= -> Hall]. do 2 f_equal.
  pose proof (all_non_skipped_range_elim _ _ _ _ _ Hall) as Hprior.
  apply all_non_skipped_range. intros s Hs.
  intros (d' & e' & Hd' & He' & Hle')%check_rejects.
  destruct (Havail s e' He') as (e2 & He2).
  destruct (Qle_bool d' e2) eqn:Hle2.
  - destruct (Hstep s d' e2 Hd' He2 Hle2) as (e3 & He3 & Hle3). congruence.
  - destruct (Hprior s Hs). apply check_rejects. by exists d', e2.
Qed.
End AcceptorDecisions.

Section AcceptorLocality.
Context {Stat : Type}.
Implicit Types (distance_function : Z -> Stat -> Stat -> result Q).
Implicit Types (eps : Z -> result Q) (x : Stat).
Implicit Types (t : Z) (ts : list Z) (log : list call).

Lemma scan_agrees distance_function distance_function' eps eps' x
    (x_0 : Stat) ts :
  (forall s, s ∈ ts ->
             distance_function s x x_0 = distance_function' s x x_0
             /\ eps s = eps' s) ->
  all_non_skipped distance_function eps x x_0 ts
  = all_non_skipped distance_function' eps' x x_0 ts
  /\ flat_map (calls_of distance_function x x_0)
       (scanned distance_function eps x x_0 ts)
     = flat_map (calls_of distance_function' x x_0)
         (scanned distance_function' eps' x x_0 ts).
Proof.
  induction ts as [|s ts IH]; intros Hagree; [done|].
  destruct (Hagree s) as [Hd He]; [by left|].
  destruct IH as [IHflag IHcalls]; [intros s' Hs'; apply Hagree; by right|].
  assert (Hcheck : check distance_function eps x x_0 s
                   = check distance_function' eps' x x_0 s).
  { unfold check. by rewrite Hd, He. }
  unfold all_non_skipped in *. cbn [forallb scanned flat_map].
  rewrite Hcheck, IHflag. split; [done|].
  unfold calls_of at 1 3. rewrite Hd.
  destruct (is_rejection _); [done|]. by rewrite IHcalls.
Qed.

(** X11.  The decision at generation [t] depends on the callables at the
    generations 0 to [t] only: two distance functions and two threshold
    providers which agree there make [accept_use_complete_history] return
    the same result with the same calls, whatever they do for later
    generations. *)
Theorem complete_history_is_local t distance_function distance_function'
    eps eps' x (x_0 : Stat) log :
  distance_function t x x_0 = distance_function' t x x_0 ->
  eps t = eps' t ->
  (forall s, 0 <= s < t ->
             distance_function s x x_0 = distance_function' s x x_0
             /\ eps s = eps' s) ->
  accept_use_complete_history t distance_function eps x x_0 log
  = accept_use_complete_history t distance_function' eps' x x_0 log.
Proof.
  intros Hd He Hprior. rewrite !complete_history_unfold, <- Hd, <- He.
  destruct (scan_agrees distance_function distance_function' eps eps' x x_0
              (range 0 t)) as [Hflag Hcalls].
  { intros s Hs. apply Hprior. unfold range in Hs.
    apply elem_of_seqZ in Hs. lia. }
  by rewrite Hflag, Hcalls.
Qed.
End AcceptorLocality.



(** *** The further theorems at concrete inputs *)

Import Scenarios.

Lemma history_only_after_acceptance_witness :
  accept_use_complete_history 3 resumed_distance resumed_eps 3%Q 0%Q []
  = accept_use_current_time 3 resumed_distance resumed_eps 3%Q 0%Q []
  /\ accept_use_complete_history (-1) steady_distance shrinking_eps 1%Q 0%Q []
     = accept_use_current_time (-1) steady_distance shrinking_eps 1%Q 0%Q [].
Proof.
  split.
  - apply history_only_after_acceptance. right. intros d Hd.
    vm_compute in Hd. discriminate Hd.
  - apply history_only_after_acceptance. left. lia.
Defined.

Lemma acceptance_is_downward_closed_witness :
  (accept_use_complete_history 1 resumed_distance resumed_eps 1%Q 0%Q []).1
  <> Ok (1%Q, false).
Proof.
  apply (acceptance_is_downward_closed 2 resumed_distance resumed_eps
           1%Q 0%Q [] 1%Q eq_refl 1 [] 1%Q).
  lia.
Defined.

Lemma complete_history_by_current_time_witness :
  (accept_use_current_time 2 resumed_distance resumed_eps 1%Q 0%Q []).1
  = Ok (1%Q, true).
Proof.
  exact (proj1 (proj1 (complete_history_by_current_time 2 resumed_distance
                         resumed_eps 1%Q 0%Q [] 1%Q) eq_refl)).
Defined.

Lemma rejection_names_its_generation_witness :
  exists r d' e',
    (r = 3 \/ 0 <= r < 3)
    /\ resumed_distance r 2%Q 0%Q = Ok d' /\ resumed_eps r = Ok e'
    /\ ~ (d' <= e')%Q
    /\ last [CallDistance 3; CallEps 3; CallDistance 0; CallDistance 1;
             CallEps 1] = Some (CallEps r).
Proof.
  exact (rejection_names_its_generation 3 resumed_distance resumed_eps
           2%Q 0%Q [] _ 4%Q eq_refl).
Defined.

Lemma history_redundant_for_shrinking_thresholds_witness :
  (accept_use_complete_history 2 steady_distance shrinking_eps 2%Q 0%Q []).1
  = (accept_use_current_time 2 steady_distance shrinking_eps 2%Q 0%Q []).1.
Proof.
  apply history_redundant_for_shrinking_thresholds.
  intros t' d' e' d e Ht' [= <-] [= <-] [= <-] [= <-]. split.
  - apply Qle_refl.
  - rewrite <- Zle_Qle. lia.
Defined.

Lemma larger_thresholds_accept_more_witness :
  (accept_use_complete_history 2 steady_distance relaxed_eps 2%Q 0%Q []).1
  = Ok (4%Q, true).
Proof.
  refine (proj2 (larger_thresholds_accept_more 2 steady_distance shrinking_eps
                   relaxed_eps 2%Q 0%Q [] 4%Q _ _) eq_refl).
  - intros s e [= <-]. exists (inject_Z (20 - s)). split; [reflexivity|].
    rewrite <- Zle_Qle. lia.
  - intros s e' _. exists (inject_Z (10 - s)). reflexivity.
Defined.

Lemma complete_history_is_local_witness :
  accept_use_complete_history 2 steady_distance shrinking_eps 2%Q 0%Q []
  = accept_use_complete_history 2 steady_distance pending_eps 2%Q 0%Q [].
Proof.
  apply complete_history_is_local; [reflexivity|reflexivity|].
  intros s Hs. split; [reflexivity|]. unfold pending_eps.
  destruct (Z.leb_spec 3 s) as [Hge|Hlt]; [lia|reflexivity].
Defined.

(** * Properties of the package module *)

Import Package Scenarios.

Lemma upper_ascii_idempotent c : upper_ascii (upper_ascii c) = upper_ascii c.
Proof. destruct c as [[] [] [] [] [] [] [] []]; reflexivity. Qed.

Lemma upper_ascii_not_lower c : is_lower (upper_ascii c) = false.
Proof. destruct c as [[] [] [] [] [] [] [] []]; reflexivity. Qed.

Lemma upper_idempotent s : upper (upper s) = upper s.
Proof.
  induction s as [|c s IH]; [done|]. cbn.
  by rewrite upper_ascii_idempotent, IH.
Qed.

Lemma upper_not_lower s :
  forallb (fun c => negb (is_lower c)) (list_ascii_of_string (upper s)) = true.
Proof.
  induction s as [|c s IH]; [done|]. cbn [upper list_ascii_of_string forallb].
  by rewrite upper_ascii_not_lower, IH.
Qed.

(** X9.  Of the 38 names in [__all__], exactly [SQLDataStore] and
    [ABCLoader] are bound by no statement of the package module; of the
    names the module imports, only [__version__] is not in [__all__];
    [__all__] has no duplicate; and neither the module [acceptor] nor any
    of its four definitions is imported or exported. *)
Theorem exported_names_and_imports :
  filter (fun name => is_bound name = false) __all__
  = ["SQLDataStore"; "ABCLoader"]%string
  /\ filter (fun name => name ∉ __all__) imported_names
     = ["__version__"]%string
  /\ NoDup __all__
  /\ Forall (fun name => is_bound name = false /\ name ∉ __all__)
       ["acceptor"; "Acceptor"; "SimpleAcceptor"; "accept_use_current_time";
        "accept_use_complete_history"]%string.
Proof.
  split; [by vm_compute|]. split; [by vm_compute|]. split.
  - apply (bool_decide_unpack (NoDup __all__)). by vm_compute.
  - apply (bool_decide_unpack
             (Forall (fun name => is_bound name = false /\ name ∉ __all__) _)).
    by vm_compute.
Qed.

(** X10.  The log level is always defined: it is [INFO] when
    [ABC_LOG_LEVEL] is not set, and no [KeyError] escapes; when the variable
    is set (to ASCII text) it is the value in upper case, which contains no
    lower-case letter.  Setting the variable to the computed level leaves
    the level unchanged. *)
Theorem loglevel_default_and_case (environ : gmap string string) :
  (forall v, environ !! "ABC_LOG_LEVEL"%string = Some v -> is_ascii v = true) ->
  exists level,
    loglevel environ = Ok level
    /\ (environ !! "ABC_LOG_LEVEL"%string = None -> level = "INFO"%string)
    /\ (forall v, environ !! "ABC_LOG_LEVEL"%string = Some v ->
                  level = upper v)
    /\ forallb (fun c => negb (is_lower c)) (list_ascii_of_string level)
       = true
    /\ loglevel (<["ABC_LOG_LEVEL"%string := level]> environ) = Ok level.
Proof.
  intros _. unfold loglevel, environ_getitem.
  destruct (environ !! "ABC_LOG_LEVEL"%string) as [v|] eqn:Hv; cbn.
  - exists (upper v). split; [done|]. split; [done|].
    split; [by intros ? [= <-]|]. split; [apply upper_not_lower|].
    rewrite lookup_insert_eq. cbn. by rewrite upper_idempotent.
  - exists "INFO"%string. split; [done|]. split; [done|].
    split; [done|]. split; [done|]. by rewrite lookup_insert_eq.
Qed.

Lemma loglevel_default_and_case_witness :
  (exists level,
      loglevel debug_environ = Ok level /\ level = "DEBUG"%string)
  /\ (exists level,
         loglevel plain_environ = Ok level /\ level = "INFO"%string).
Proof.
  split.
  - destruct (loglevel_default_and_case debug_environ)
      as (level & Hlevel & _ & Hupper & _).
    + intros v Hv. vm_compute in Hv. injection Hv as <-. reflexivity.
    + exists level. split; [exact Hlevel|].
      exact (Hupper "debug"%string eq_refl).
  - destruct (loglevel_default_and_case plain_environ)
      as (level & Hlevel & Hdefault & _).
    + intros v Hv. vm_compute in Hv. discriminate Hv.
    + exists level. split; [exact Hlevel|]. apply Hdefault. reflexivity.
Defined.
